(** * goscope: the dependency graph, its PageRank scorer, the hotspot list
      and the per-microservice declaration graph

    A shallow embedding of
      - package [graph] (DependencyGraph, AddVertex, AddEdge, OutDegree,
        InDegree, computePageRank, Analyze, GetTopHotspots), and
      - [buildDeclGraph] and [matchGoTypeRef] of package [report], with the
        records of package [parser] they read,
    with the properties the specification states about them.

    Conventions.
      - A Go [map[string]V] is a [gmap string V]; reading a missing key
        gives the zero value of [V], written out with [default].  A local
        [map[string]bool] that only ever receives [true] is a [gset string].
      - A run-time panic (a write to a nil map, a slice bound below 0) is
        the result [None].
      - Go does not fix the order in which [range] visits a map, and
        [sort.Slice] is not stable.  Both are taken from a [GoRuntime]:
        any enumeration that is a permutation of the map's entries, any
        sort that returns a sorted permutation.  Theorems hold for every
        such runtime; [canonical_runtime] is one, and is used to run the
        definitions on concrete inputs.  A runtime visits equal maps in the
        same order.
      - [float64] arithmetic is taken from a [Float64] structure, which has
        the operations the code uses and no laws.  [binary64] instantiates
        it with IEEE 754 double precision, [exactQ] with the rationals.
      - [os.ReadFile] is a function from paths to contents, [None] on an
        error. *)

From Stdlib Require Import Ascii String QArith.
From Stdlib Require Import Floats.
From stdpp Require Import gmap strings list sorting fin_maps.

Local Open Scope nat_scope.

(** ** Arithmetic of [float64] *)

Class Float64 (T : Type) := {
  fzero : T;                     (* the zero value, 0 *)
  fone : T;                      (* the literal 1.0 *)
  flit_085 : T;                  (* the literal 0.85 *)
  flit_0001 : T;                 (* the literal 0.001 *)
  fadd : T → T → T;
  fsub : T → T → T;
  fmul : T → T → T;
  fdiv : T → T → T;
  fgtb : T → T → bool;           (* a > b *)
  fltb : T → T → bool;           (* a < b *)
  of_len : nat → T;              (* float64(len(...)) *)
}.

#[export] Instance binary64 : Float64 float := {|
  fzero := 0%float;
  fone := 1%float;
  flit_085 := 0x1.b333333333333p-1%float;      (* the double nearest 0.85 *)
  flit_0001 := 0x1.0624dd2f1a9fcp-10%float;    (* the double nearest 0.001 *)
  fadd := PrimFloat.add;
  fsub := PrimFloat.sub;
  fmul := PrimFloat.mul;
  fdiv := PrimFloat.div;
  fgtb := λ a b, PrimFloat.ltb b a;
  fltb := PrimFloat.ltb;
  of_len := λ n, PrimFloat.of_uint63 (Uint63.of_Z (Z.of_nat n));
|}.

#[export] Instance exactQ : Float64 Q := {|
  fzero := 0%Q;
  fone := 1%Q;
  flit_085 := (85 # 100)%Q;
  flit_0001 := (1 # 1000)%Q;
  fadd := Qplus;
  fsub := Qminus;
  fmul := Qmult;
  fdiv := Qdiv;
  fgtb := λ a b, if Qlt_le_dec b a then true else false;
  fltb := λ a b, if Qlt_le_dec a b then true else false;
  of_len := λ n, inject_Z (Z.of_nat n);
|}.

(** ** What Go leaves to the runtime *)

(** [less] is a strict weak ordering on the elements of [l]: what
    [sort.Slice] asks of the comparison it is given. *)
Record StrictWeak {A} (less : A → A → bool) (l : list A) : Prop := {
  sw_irrefl : ∀ a, a ∈ l → less a a = false;
  sw_trans : ∀ a b c, a ∈ l → b ∈ l → c ∈ l →
    less a b = true → less b c = true → less a c = true;
  sw_incomp : ∀ a b c, a ∈ l → b ∈ l → c ∈ l →
    less a b = false → less b c = false → less a c = false;
}.

(** No later element is less than an earlier one. *)
Definition SortedBy {A} (less : A → A → bool) (l : list A) : Prop :=
  StronglySorted (λ a b, less b a = false) l.

Class GoRuntime := {
  (* the order in which [for k, v := range m] visits [m] *)
  go_range : ∀ {V}, gmap string V → list (string * V);
  go_range_perm : ∀ V (m : gmap string V), go_range m ≡ₚ map_to_list m;
  (* [sort.Slice(l, less)] *)
  sort_Slice : ∀ {A}, (A → A → bool) → list A → list A;
  sort_Slice_perm : ∀ A (less : A → A → bool) l, sort_Slice less l ≡ₚ l;
  sort_Slice_sorted : ∀ A (less : A → A → bool) l,
    StrictWeak less l → SortedBy less (sort_Slice less l);
}.

(** [for k := range m] *)
Definition go_keys `{GoRuntime} {V} (m : gmap string V) : list string :=
  (go_range m).*1.

(** An insertion sort, one admissible [sort.Slice]. *)
Fixpoint insert_by {A} (less : A → A → bool) (x : A) (l : list A) : list A :=
  match l with
  | [] => [x]
  | y :: l' => if less y x then y :: insert_by less x l' else x :: l
  end.

Definition insertion_sort {A} (less : A → A → bool) (l : list A) : list A :=
  foldr (insert_by less) [] l.

(** ** Package [parser]: the records the graphs are built from *)

Module parser.

Inductive DeclKind :=
  | DeclStruct | DeclInterface | DeclFunc | DeclType | DeclConst | DeclVar
  | DeclMessage | DeclService | DeclRPC | DeclEnum.

#[global] Instance DeclKind_eq_dec : EqDecision DeclKind.
Proof. solve_decision. Defined.

(** The string a [DeclKind] is: [string(d.kind)]. *)
Definition kind_string (k : DeclKind) : string :=
  match k with
  | DeclStruct => "struct" | DeclInterface => "interface" | DeclFunc => "func"
  | DeclType => "type" | DeclConst => "const" | DeclVar => "var"
  | DeclMessage => "message" | DeclService => "service" | DeclRPC => "rpc"
  | DeclEnum => "enum"
  end.

Record Declaration := mkDecl {
  Name : string;
  Kind : DeclKind;
}.

(** [FunctionInfo]; its fields carry the prefix [fi_], as [ParsedFile] has a
    [FilePath] too. *)
Record FunctionInfo := mkFunctionInfo {
  fi_Name : string;
  fi_LineCount : Z;
  fi_FilePath : string;
}.

(** [ParsedFile], with the fields the graphs read. *)
Record ParsedFile := mkParsedFile {
  FilePath : string;
  Declarations : list Declaration;
  BigFunctions : list FunctionInfo;
}.

(** The part of [s] after its last ['/'], if it has one. *)
Fixpoint after_last_slash (s : string) : option string :=
  match s with
  | EmptyString => None
  | String c r =>
      match after_last_slash r with
      | Some x => Some x
      | None => if Ascii.eqb c "/"%char then Some r else None
      end
  end.

Definition FileName (p : ParsedFile) : string :=
  default (FilePath p) (after_last_slash (FilePath p)).

End parser.

(** ** Package [graph]: the dependency graph *)

Module graph.

Section Graph.
Context {T : Type} `{Float64 T}.

Record DependencyGraph := mkGraph {
  Vertices : gmap string bool;
  Edges : list (string * string);            (* [source, target] *)
  adjacency : gmap string (gmap string bool);
  reverseAdj : gmap string (gmap string bool);
  PageRankScores : gmap string T;
}.

Definition New : DependencyGraph :=
  {| Vertices := ∅; Edges := []; adjacency := ∅; reverseAdj := ∅;
     PageRankScores := ∅ |}.

(** [m[k]] on a [map[string]bool]: [false] when the key is absent. *)
Definition get_bool (m : gmap string bool) (k : string) : bool :=
  default false (m !! k).

(** [m[k]] on a map of maps: the nil map reads as the empty one. *)
Definition get_map (m : gmap string (gmap string bool)) (k : string)
  : gmap string bool :=
  default ∅ (m !! k).

(** [if m[v] == nil { m[v] = make(map[string]bool) }] *)
Definition init_adj (m : gmap string (gmap string bool)) (v : string)
  : gmap string (gmap string bool) :=
  match m !! v with
  | None => <[v := ∅]> m
  | Some _ => m
  end.

Definition AddVertex (g : DependencyGraph) (v : string) : DependencyGraph :=
  {| Vertices := <[v := true]> (Vertices g);
     Edges := Edges g;
     adjacency := init_adj (adjacency g) v;
     reverseAdj := init_adj (reverseAdj g) v;
     PageRankScores := PageRankScores g |}.

(** [m[a][b] = true]: a run-time panic ([None]) when [m[a]] is nil. *)
Definition set_adj (m : gmap string (gmap string bool)) (a b : string)
  : option (gmap string (gmap string bool)) :=
  match m !! a with
  | None => None
  | Some inner => Some (<[a := <[b := true]> inner]> m)
  end.

(** [AddEdge]; [None] is the panic of a write to a nil map. *)
Definition AddEdge (g : DependencyGraph) (source target : string)
  : option DependencyGraph :=
  if bool_decide (source = target)
     || negb (get_bool (Vertices g) source)
     || negb (get_bool (Vertices g) target)
  then Some g
  else if get_bool (get_map (adjacency g) source) target
  then Some g
  else
    adj' ← set_adj (adjacency g) source target;
    rev' ← set_adj (reverseAdj g) target source;
    Some {| Vertices := Vertices g;
            Edges := Edges g ++ [(source, target)];
            adjacency := adj';
            reverseAdj := rev';
            PageRankScores := PageRankScores g |}.

Definition OutDegree (g : DependencyGraph) (v : string) : nat :=
  size (get_map (adjacency g) v).

Definition InDegree (g : DependencyGraph) (v : string) : nat :=
  size (get_map (reverseAdj g) v).

(** A call of the graph's building interface. *)
Inductive GraphOp :=
  | OpAddVertex (v : string)
  | OpAddEdge (source target : string).

Definition apply_op (g : DependencyGraph) (op : GraphOp)
  : option DependencyGraph :=
  match op with
  | OpAddVertex v => Some (AddVertex g v)
  | OpAddEdge s t => AddEdge g s t
  end.

(** The calls of [ops] in order, from [g]. *)
Fixpoint run_ops (g : DependencyGraph) (ops : list GraphOp)
  : option DependencyGraph :=
  match ops with
  | [] => Some g
  | op :: ops' => g' ← apply_op g op; run_ops g' ops'
  end.

(** *** PageRank *)

(** [scores[v]]: 0 when the key is absent. *)
Definition get_score (m : gmap string T) (k : string) : T :=
  default fzero (m !! k).

(** [for v := range g.Vertices { m[v] = x }], visiting [vs]. *)
Definition fill_scores (vs : list string) (x : T) (m : gmap string T)
  : gmap string T :=
  foldl (λ acc v, <[v := x]> acc) m vs.

(** [for neighbor := range neighbors { newScores[neighbor] += damping * share }] *)
Definition spread (damping share : T) (nbs : list string)
    (newScores : gmap string T) : gmap string T :=
  foldl (λ acc nb, <[nb := fadd (get_score acc nb) (fmul damping share)]> acc)
        newScores nbs.

Context `{GoRuntime}.

(** The body of the second [for v := range g.Vertices] loop of an
    iteration, for the vertex [v]. *)
Definition distribute_from (g : DependencyGraph) (damping : T)
    (scores : gmap string T) (newScores : gmap string T) (v : string)
  : gmap string T :=
  let neighbors := get_map (adjacency g) v in
  if size neighbors =? 0 then newScores
  else
    let share := fdiv (get_score scores v) (of_len (size neighbors)) in
    spread damping share (go_keys neighbors) newScores.

(** One pass of the loop [for i := 0; i < iterations; i++]: from the
    current [scores] to the map that replaces it. *)
Definition pagerank_iteration (g : DependencyGraph) (damping n : T)
    (scores : gmap string T) : gmap string T :=
  let newScores :=
    fill_scores (go_keys (Vertices g)) (fdiv (fsub fone damping) n) ∅ in
  foldl (distribute_from g damping scores) newScores (go_keys (Vertices g)).

(** [computePageRank].  [n == 0] is tested on the length: the conversion
    [float64(len(g.Vertices))] is 0 exactly when the length is.  A negative
    [iterations] runs the loop zero times. *)
Definition computePageRank (g : DependencyGraph) (damping : T)
    (iterations : Z) : DependencyGraph :=
  if size (Vertices g) =? 0 then g
  else
    let n := of_len (size (Vertices g)) in
    let scores := fill_scores (go_keys (Vertices g)) (fdiv fone n) ∅ in
    let scores :=
      Nat.iter (Z.to_nat iterations) (pagerank_iteration g damping n) scores in
    {| Vertices := Vertices g;
       Edges := Edges g;
       adjacency := adjacency g;
       reverseAdj := reverseAdj g;
       PageRankScores := scores |}.

Definition Analyze (g : DependencyGraph) : DependencyGraph :=
  computePageRank g flit_085 100.

(** *** Hotspots *)

Record HotspotEntry := mkHotspot {
  Path : string;
  Score : T;
}.

(** The [less] of [GetTopHotspots]: [entries[i].Score > entries[j].Score]. *)
Definition hotter (a b : HotspotEntry) : bool := fgtb (Score a) (Score b).


End Graph.

Arguments DependencyGraph T : clear implicits.
Arguments HotspotEntry T : clear implicits.

End graph.

(** ** PageRank as the specification words it

    Section 4.3: every vertex starts at [1/N]; an iteration gives every
    vertex the base mass [(1-damping)/N] and adds, for every vertex [v] with
    out-degree above 0, [v]'s current score divided by its out-degree and
    multiplied by the damping factor to the new score of each out-neighbour
    of [v]; the scores are replaced as a whole after each iteration; 100
    iterations at damping 0.85, with no renormalization. *)

Module pagerank_spec.
Import graph.

Section Spec.
Context {T : Type} {F64 : Float64 T} {R : GoRuntime}.

(** [u] is an out-neighbour of [v]. *)
Definition out_neighbor (g : DependencyGraph T) (v u : string) : bool :=
  bool_decide (is_Some (get_map (adjacency g) v !! u)).

(** [N], as a score. *)
Definition vertex_count (g : DependencyGraph T) : T :=
  of_len (size (Vertices g)).

Definition initial_scores (g : DependencyGraph T) : gmap string T :=
  (λ _, fdiv fone (vertex_count g)) <$> Vertices g.

(** What [v] passes on to each of its out-neighbours. *)
Definition share_of (g : DependencyGraph T) (damping : T)
    (cur : gmap string T) (v : string) : T :=
  fmul damping (fdiv (get_score cur v) (of_len (OutDegree g v))).

(** The new score of [u]: the base mass, then the shares of the vertices
    that have [u] as an out-neighbour, added in the order the vertices are
    visited. *)
Definition new_score (g : DependencyGraph T) (damping : T)
    (cur : gmap string T) (u : string) : T :=
  foldl (λ acc v, if (0 <? OutDegree g v) && out_neighbor g v u
                  then fadd acc (share_of g damping cur v)
                  else acc)
        (fdiv (fsub fone damping) (vertex_count g))
        (go_keys (Vertices g)).

Definition iteration (g : DependencyGraph T) (damping : T)
    (cur : gmap string T) : gmap string T :=
  map_imap (λ u _, Some (new_score g damping cur u)) (Vertices g).

Definition pagerank (g : DependencyGraph T) (damping : T) (k : nat)
  : gmap string T :=
  Nat.iter k (iteration g damping) (initial_scores g).

End Spec.

End pagerank_spec.

(** ** Package [report]: the declaration graph of a microservice *)

Module report.

Definition isIdentChar (b : ascii) : bool :=
  let n := nat_of_ascii b in
  ((97 <=? n) && (n <=? 122)) || ((65 <=? n) && (n <=? 90))
  || ((48 <=? n) && (n <=? 57)) || (n =? 95).

(** [s[i]], read only where [i < len(s)]. *)
Definition byte_at (s : string) (i : nat) : ascii :=
  default Ascii.zero (String.get i s).

(** The loop of [matchGoTypeRef] from index [i], with [fuel] indices left. *)
Fixpoint match_loop (source typeName : string) (i fuel : nat) : bool :=
  match fuel with
  | O => false
  | S fuel' =>
      let tl := String.length typeName in
      let sl := String.length source in
      if negb (bool_decide (substring i tl source = typeName))
      then match_loop source typeName (S i) fuel'
      else if (0 <? i) && isIdentChar (byte_at source (i - 1))
      then match_loop source typeName (S i) fuel'
      else if (i + tl <? sl) && isIdentChar (byte_at source (i + tl))
      then match_loop source typeName (S i) fuel'
      else true
  end.

(** [matchGoTypeRef]: [i] runs over [0 .. sl-tl], over nothing when
    [tl > sl]. *)
Definition matchGoTypeRef (source typeName : string) : bool :=
  match_loop source typeName 0
             (S (String.length source) - String.length typeName).

(** The map [typeKinds]. *)
Definition typeKinds (k : parser.DeclKind) : bool :=
  match k with
  | parser.DeclStruct | parser.DeclInterface | parser.DeclMessage
  | parser.DeclService | parser.DeclEnum => true
  | _ => false
  end.

Record MicroserviceSummary := mkMS {
  Name : string;
  Files : list parser.ParsedFile;
}.

Record gLink := mkLink {
  Source : string;
  Target : string;
}.

(** The local type [di]: a declaration that is a node. *)
Record di := mkDi {
  name : string;
  fp : string;
  fn : string;
  kind : parser.DeclKind;
}.

(** [d.fp + "::" + d.name] *)
Definition node_id (d : di) : string := fp d +:+ "::" +:+ name d.

(** [srcID + "->" + tgt.fp + "::" + tgt.name] *)
Definition edge_key (srcID : string) (tgt : di) : string :=
  srcID +:+ "->" +:+ node_id tgt.

(** *** The nodes *)

Definition collect_decl (f : parser.ParsedFile) (st : list di * gset string)
    (d : parser.Declaration) : list di * gset string :=
  let '(ad, funcSet) := st in
  let ad :=
    if typeKinds (parser.Kind d) && (3 <=? String.length (parser.Name d))
    then ad ++ [mkDi (parser.Name d) (parser.FilePath f) (parser.FileName f)
                     (parser.Kind d)]
    else ad in
  if bool_decide (parser.Kind d = parser.DeclFunc)
     && (3 <=? String.length (parser.Name d))
  then
    let key := parser.FilePath f +:+ "::" +:+ parser.Name d in
    if bool_decide (key ∈ funcSet) then (ad, funcSet)
    else (ad ++ [mkDi (parser.Name d) (parser.FilePath f) (parser.FileName f)
                      parser.DeclFunc],
          {[key]} ∪ funcSet)
  else (ad, funcSet).

Definition collect_big (f : parser.ParsedFile) (st : list di * gset string)
    (bf : parser.FunctionInfo) : list di * gset string :=
  let '(ad, funcSet) := st in
  let key := parser.fi_FilePath bf +:+ "::" +:+ parser.fi_Name bf in
  if bool_decide (key ∈ funcSet) then (ad, funcSet)
  else (ad ++ [mkDi (parser.fi_Name bf) (parser.fi_FilePath bf)
                    (parser.FileName f) parser.DeclFunc],
        {[key]} ∪ funcSet).

Definition collect_file (st : list di * gset string) (f : parser.ParsedFile)
  : list di * gset string :=
  foldl (collect_big f) (foldl (collect_decl f) st (parser.Declarations f))
        (parser.BigFunctions f).

(** The declarations collected as nodes, before the cap. *)
Definition collect (ms : MicroserviceSummary) : list di :=
  (foldl collect_file ([], ∅) (Files ms)).1.

(** [fileNodes]: the nodes grouped by file. *)
Definition group_by_file (ad : list di) : gmap string (list di) :=
  foldl (λ m d, <[fp d := default [] (m !! fp d) ++ [d]]> m) ∅ ad.

Section Report.
Context {T : Type} `{Float64 T} `{GoRuntime}.

(** [os.ReadFile]: the content of the file at a path, [None] on an error. *)
Variable ReadFile : string → option string.

Record gNode := mkNode {
  ID : string;
  Label : string;
  Sublabel : string;
  Kind : string;
  Score : T;
  Group : string;
}.

Record gData := mkData {
  Nodes : list gNode;
  Links : list gLink;
}.

(** The local type [candidate]. *)
Record candidate := mkCand {
  target : string;
  tgtScore : T;
}.

(** The node cap: beyond 80, the declarations of the highest-scored files. *)
Definition cap_nodes (scores : gmap string T) (ad : list di) : list di :=
  if 80 <? length ad
  then take 80 (sort_Slice (λ a b, fgtb (graph.get_score scores (fp a))
                                        (graph.get_score scores (fp b))) ad)
  else ad.

(** The score of a node: that of its file, at least 0.001. *)
Definition node_score (scores : gmap string T) (d : di) : T :=
  let s := graph.get_score scores (fp d) in
  if fltb s flit_0001 then flit_0001 else s.

Definition make_nodes (ms : MicroserviceSummary) (scores : gmap string T)
    (ad : list di) : list gNode :=
  (λ d, mkNode (node_id d) (name d) (fn d) (parser.kind_string (kind d))
               (node_score scores d) (Name ms)) <$> ad.

Definition make_nodeScores (scores : gmap string T) (ad : list di)
  : gmap string T :=
  foldl (λ m d, <[node_id d := node_score scores d]> m) ∅ ad.

Definition make_nodeSet (ad : list di) : gset string :=
  foldl (λ s d, {[node_id d]} ∪ s) ∅ ad.

(** [fileContents]: the files of the microservice that could be read. *)
Definition read_files (ms : MicroserviceSummary) : gmap string string :=
  foldl (λ m f, match ReadFile (parser.FilePath f) with
                | Some content => <[parser.FilePath f := content]> m
                | None => m
                end) ∅ (Files ms).

(** *** The edges *)

(** The maps [outgoing] and [seen]. *)
Record EdgeState := mkEdges {
  outgoing : gmap string (list candidate);
  seen : gset string;
}.

(** [outgoing[srcID] = append(outgoing[srcID], candidate{tgtID,
    nodeScores[tgtID]}); seen[ek] = true] *)
Definition add_candidate (nodeScores : gmap string T) (st : EdgeState)
    (srcID tgtID ek : string) : EdgeState :=
  {| outgoing :=
       <[srcID := default [] (outgoing st !! srcID)
                  ++ [mkCand tgtID (graph.get_score nodeScores tgtID)]]>
         (outgoing st);
     seen := {[ek]} ∪ seen st |}.

(** Strategy 1, cross-file references: the body for a node [d] of the file
    [fpK], whose content is [cs], and a node [tgt]. *)
Definition cross_ref (nodeScores : gmap string T) (fpK cs : string) (d : di)
    (st : EdgeState) (tgt : di) : EdgeState :=
  if bool_decide (fp tgt = fpK) then st
  else if bool_decide (name tgt = name d) || (String.length (name tgt) <=? 4)
  then st
  else
    let srcID := node_id d in
    let ek := edge_key srcID tgt in
    if bool_decide (ek ∈ seen st) then st
    else if matchGoTypeRef cs (name tgt)
    then add_candidate nodeScores st srcID (node_id tgt) ek
    else st.

Definition strategy1 (nodeScores : gmap string T) (ad : list di)
    (fileContents : gmap string string) (fileNodes : gmap string (list di))
    (st : EdgeState) : EdgeState :=
  foldl (λ st (kv : string * string),
           foldl (λ st d, foldl (cross_ref nodeScores kv.1 kv.2 d) st ad)
                 st (default [] (fileNodes !! kv.1)))
        st (go_range fileContents).

(** Strategy 2, co-location: the body for the [i]-th node [src] and the
    [j]-th node [tgt] of a file. *)
Definition colocate (nodeScores : gmap string T) (i : nat) (src : di)
    (st : EdgeState) (jt : nat * di) : EdgeState :=
  let '(j, tgt) := jt in
  if (i =? j) || bool_decide (name tgt = name src) then st
  else
    let srcID := node_id src in
    let tgtID := node_id tgt in
    let ek := srcID +:+ "->" +:+ tgtID in
    if bool_decide (ek ∈ seen st) then st
    else add_candidate nodeScores st srcID tgtID ek.

(** The elements of a slice with their indices: [for i, x := range l]. *)
Definition indexed {A} (l : list A) : list (nat * A) := imap pair l.

(** Strategy 2 for the nodes of one file. *)
Definition colocate_file (nodeScores : gmap string T) (st : EdgeState)
    (nodesInFile : list di) : EdgeState :=
  if (length nodesInFile <? 2) || (20 <? length nodesInFile) then st
  else
    foldl (λ st (src : nat * di),
             foldl (colocate nodeScores src.1 src.2) st (indexed nodesInFile))
          st (indexed nodesInFile).

Definition strategy2 (nodeScores : gmap string T)
    (fileNodes : gmap string (list di)) (st : EdgeState) : EdgeState :=
  foldl (λ st (kv : string * list di), colocate_file nodeScores st kv.2)
        st (go_range fileNodes).

(** Strategy 3, proto service to message: the body for a service [src],
    the content [cs] of its file, and a node [tgt]. *)
Definition service_ref (nodeScores : gmap string T) (cs : string) (src : di)
    (st : EdgeState) (tgt : di) : EdgeState :=
  if negb (bool_decide (kind tgt = parser.DeclMessage))
     && negb (bool_decide (kind tgt = parser.DeclRPC))
  then st
  else if String.length (name tgt) <=? 4 then st
  else
    let srcID := node_id src in
    let ek := edge_key srcID tgt in
    if bool_decide (ek ∈ seen st) then st
    else if matchGoTypeRef cs (name tgt)
    then add_candidate nodeScores st srcID (node_id tgt) ek
    else st.

Definition strategy3 (nodeScores : gmap string T) (ad : list di)
    (fileContents : gmap string string) (st : EdgeState) : EdgeState :=
  foldl (λ st src,
           if negb (bool_decide (kind src = parser.DeclService)) then st
           else
             let cs := default "" (fileContents !! fp src) in
             if bool_decide (cs = "") then st
             else foldl (service_ref nodeScores cs src) st ad)
        st ad.

(** Strategy 4, function calls across files. *)
Definition call_ref (nodeScores : gmap string T) (cs : string) (src : di)
    (st : EdgeState) (tgt : di) : EdgeState :=
  if negb (bool_decide (kind tgt = parser.DeclFunc))
     || bool_decide (fp tgt = fp src) || bool_decide (name tgt = name src)
  then st
  else if String.length (name tgt) <=? 4 then st
  else
    let srcID := node_id src in
    let ek := edge_key srcID tgt in
    if bool_decide (ek ∈ seen st) then st
    else if matchGoTypeRef cs (name tgt)
    then add_candidate nodeScores st srcID (node_id tgt) ek
    else st.

Definition strategy4 (nodeScores : gmap string T) (ad : list di)
    (fileContents : gmap string string) (st : EdgeState) : EdgeState :=
  foldl (λ st src,
           if negb (bool_decide (kind src = parser.DeclFunc)) then st
           else
             let cs := default "" (fileContents !! fp src) in
             if bool_decide (cs = "") then st
             else foldl (call_ref nodeScores cs src) st ad)
        st ad.

(** *** The caps *)

(** The [less] of the candidates: [cands[i].tgtScore > cands[j].tgtScore]. *)
Definition better (a b : candidate) : bool := fgtb (tgtScore a) (tgtScore b).

Definition maxOutPerNode : nat := 5.

(** The candidates of a source that are kept: the first [maxOutPerNode]
    after the sort. *)
Definition kept (cands : list candidate) : list candidate :=
  let cands := sort_Slice better cands in
  let limit := maxOutPerNode in
  let limit := if length cands <? limit then length cands else limit in
  take limit cands.

(** The body of [for srcID, cands := range outgoing]. *)
Definition cap_source (nodeSet : gset string) (links : list gLink)
    (kv : string * list candidate) : list gLink :=
  let '(srcID, cands) := kv in
  if negb (bool_decide (srcID ∈ nodeSet)) then links
  else
    foldl (λ links c,
             if bool_decide (target c ∈ nodeSet)
             then links ++ [mkLink srcID (target c)]
             else links)
          links (kept cands).

Definition cap_outgoing (nodeSet : gset string)
    (outgoing : gmap string (list candidate)) : list gLink :=
  foldl (cap_source nodeSet) [] (go_range outgoing).

(** The global cap. *)
Definition cap_links (nodes : list gNode) (links : list gLink) : list gLink :=
  let maxEdges := length nodes * 3 in
  let maxEdges := if maxEdges <? 10 then 10 else maxEdges in
  if maxEdges <? length links then take maxEdges links else links.

(** The candidate edges of the four strategies, in the order the code runs
    them. *)
Definition build_edges (nodeScores : gmap string T) (ad : list di)
    (fileContents : gmap string string) : EdgeState :=
  let fileNodes := group_by_file ad in
  let st := mkEdges ∅ ∅ in
  let st := strategy1 nodeScores ad fileContents fileNodes st in
  let st := strategy2 nodeScores fileNodes st in
  let st := strategy3 nodeScores ad fileContents st in
  strategy4 nodeScores ad fileContents st.

Definition buildDeclGraph (ms : MicroserviceSummary) (scores : gmap string T)
  : gData :=
  let ad := cap_nodes scores (collect ms) in
  let nodes := make_nodes ms scores ad in
  let nodeScores := make_nodeScores scores ad in
  let nodeSet := make_nodeSet ad in
  let fileContents := read_files ms in
  let st := build_edges nodeScores ad fileContents in
  let links := cap_outgoing nodeSet (outgoing st) in
  let links := cap_links nodes links in
  mkData nodes links.

End Report.

Arguments gNode T : clear implicits.
Arguments gData T : clear implicits.
Arguments candidate T : clear implicits.
Arguments EdgeState T : clear implicits.

End report.

(** * Properties *)

(** ** The canonical runtime *)

Section InsertionSort.
Context {A : Type} (less : A → A → bool).

Lemma insert_by_perm x l : insert_by less x l ≡ₚ x :: l.
Proof.
  induction l as [|y l IH]; simpl; [done|].
  destruct (less y x); [|done].
  rewrite IH. apply Permutation_swap.
Qed.

Lemma insertion_sort_perm l : insertion_sort less l ≡ₚ l.
Proof.
  induction l as [|x l IH]; simpl; [done|].
  rewrite insert_by_perm. by rewrite IH.
Qed.

Lemma StrictWeak_asym l a b :
  StrictWeak less l → a ∈ l → b ∈ l → less a b = true → less b a = false.
Proof.
  intros SW Ha Hb Hab. destruct (less b a) eqn:Hba; [|done].
  rewrite <- (sw_irrefl _ _ SW a Ha). symmetry. by eapply (sw_trans _ _ SW a b a).
Qed.

Lemma StrictWeak_mono l k :
  StrictWeak less l → k ⊆ l → StrictWeak less k.
Proof.
  intros [Hi Ht Hc] Hsub. split.
  - intros a Ha. apply Hi, Hsub, Ha.
  - intros a b c Ha Hb Hc'. apply Ht; by apply Hsub.
  - intros a b c Ha Hb Hc'. apply Hc; by apply Hsub.
Qed.

Lemma insert_by_sorted x l :
  StrictWeak less (x :: l) → SortedBy less l → SortedBy less (insert_by less x l).
Proof.
  intros SW Hsorted. induction Hsorted as [|y l Hs IH Hall]; simpl.
  - repeat constructor.
  - destruct (less y x) eqn:Hyx.
    + constructor.
      * apply IH. eapply StrictWeak_mono; [exact SW|]. set_solver.
      * apply Forall_forall. intros b Hb.
        rewrite insert_by_perm in Hb.
        apply elem_of_cons in Hb as [->|Hb].
        -- eapply StrictWeak_asym; [exact SW| | |done]; set_solver.
        -- by eapply (proj1 (Forall_forall _ _) Hall).
    + constructor; [by constructor|].
      constructor; [done|].
      apply Forall_forall. intros b Hb.
      eapply (sw_incomp _ _ SW b y x); [set_solver..| |done].
      by eapply (proj1 (Forall_forall _ _) Hall).
Qed.

Lemma insertion_sort_sorted l :
  StrictWeak less l → SortedBy less (insertion_sort less l).
Proof.
  induction l as [|x l IH]; intros SW; simpl; [constructor|].
  apply insert_by_sorted.
  - eapply StrictWeak_mono; [exact SW|].
    intros b Hb. apply elem_of_cons in Hb as [->|Hb]; [set_solver|].
    apply elem_of_cons. right. by rewrite <- (insertion_sort_perm l).
  - apply IH. eapply StrictWeak_mono; [exact SW|]. set_solver.
Qed.

End InsertionSort.

(** [range] in the order of [map_to_list], [sort.Slice] as the insertion
    sort. *)
#[export] Instance canonical_runtime : GoRuntime := {|
  go_range := λ V m, map_to_list m;
  go_range_perm := λ V m, reflexivity _;
  sort_Slice := @insertion_sort;
  sort_Slice_perm := @insertion_sort_perm;
  sort_Slice_sorted := @insertion_sort_sorted;
|}.


(** In a sorted slice no element after position [n] is better than one
    before it. *)
Lemma SortedBy_take_drop {A} (less : A → A → bool) n l x y :
  SortedBy less l → x ∈ take n l → y ∈ drop n l → less y x = false.
Proof.
  unfold SortedBy. rewrite <- (take_drop n l) at 1. intros Hs Hx Hy.
  by apply (StronglySorted_app_1_elem_of _ _ _ x y Hs).
Qed.

(** ** The order of the scores

    [>] is a strict weak ordering on the rationals, and on the doubles that
    are not NaN. *)


(** The place of a double that is not NaN in the order: its class (the
    infinities, the negative and the positive numbers, the zeros), then
    exponent and mantissa. *)
Definition rank (x : spec_float) : Z * Z * Z :=
  match x with
  | S754_nan => (0, 0, 0)%Z
  | S754_zero _ => (0, 0, 0)%Z
  | S754_infinity s => (if s then -2 else 2, 0, 0)%Z
  | S754_finite s m e =>
      if s then (-1, - e, - Z.pos m)%Z else (1, e, Z.pos m)%Z
  end.

Definition lex_lt (a b : Z * Z * Z) : Prop :=
  (a.1.1 < b.1.1
   ∨ (a.1.1 = b.1.1 ∧ (a.1.2 < b.1.2 ∨ (a.1.2 = b.1.2 ∧ a.2 < b.2))))%Z.

Lemma SFltb_rank x y :
  x ≠ S754_nan → y ≠ S754_nan →
  SFltb x y = true ↔ lex_lt (rank x) (rank y).
Proof.
  intros Hx Hy. unfold SFltb, lex_lt.
  destruct x as [sx|sx| |sx mx ex], y as [sy|sy| |sy my ey]; try done;
    simpl; try (destruct sx); try (destruct sy); simpl;
    try (split; [done|lia]); try (split; [lia|done]); try (split; lia).
  - destruct (Z.compare_spec ex ey); simpl;
      try (split; [lia|done || lia]); try (split; [done|lia]).
    change (Pos.compare_cont Eq mx my) with (Pos.compare mx my).
    destruct (Pos.compare_spec mx my); simpl; split; try done; try lia.
  - destruct (Z.compare_spec ex ey); simpl;
      try (split; [lia|done || lia]); try (split; [done|lia]).
    change (Pos.compare_cont Eq mx my) with (Pos.compare mx my).
    destruct (Pos.compare_spec mx my); simpl; split; try done; try lia.
Qed.

Lemma is_nan_false x : PrimFloat.is_nan x = false → Prim2SF x ≠ S754_nan.
Proof.
  unfold PrimFloat.is_nan. rewrite FloatAxioms.eqb_spec. intros Heq Hnan.
  rewrite Hnan in Heq. done.
Qed.

Lemma ltb_rank x y :
  PrimFloat.is_nan x = false → PrimFloat.is_nan y = false →
  PrimFloat.ltb x y = true ↔ lex_lt (rank (Prim2SF x)) (rank (Prim2SF y)).
Proof.
  intros Hx Hy. rewrite ltb_spec. apply SFltb_rank; by apply is_nan_false.
Qed.

Lemma fgtb_StrictWeak_binary64 {A} (key : A → float) (l : list A) :
  Forall (λ a, PrimFloat.is_nan (key a) = false) l →
  StrictWeak (λ a b, fgtb (key a) (key b)) l.
Proof.
  intros Hnan. rewrite Forall_forall in Hnan. simpl.
  assert (∀ a b, a ∈ l → b ∈ l →
            PrimFloat.ltb (key b) (key a) = false
            ↔ ¬ lex_lt (rank (Prim2SF (key b))) (rank (Prim2SF (key a))))
    as Hfalse.
  { intros a b Ha Hb. rewrite <- ltb_rank by (by apply Hnan).
    by destruct (PrimFloat.ltb _ _). }
  split.
  - intros a Ha. apply Hfalse; [done..|]. unfold lex_lt. lia.
  - intros a b c Ha Hb Hc. rewrite !ltb_rank by (by apply Hnan).
    unfold lex_lt. lia.
  - intros a b c Ha Hb Hc. rewrite !Hfalse by done. unfold lex_lt. lia.
Qed.

(** ** The dependency graph *)

Module graph_facts.
Import graph.

Section Invariant.
Context {T : Type} {F64 : Float64 T}.

Local Abbreviation Graph := (DependencyGraph T).

(** The number of edges of the list that leave [v], and that enter it. *)
Definition edges_from (g : Graph) (v : string) : nat :=
  length (filter (λ e, e.1 = v) (Edges g)).

Definition edges_to (g : Graph) (v : string) : nat :=
  length (filter (λ e, e.2 = v) (Edges g)).

(** What the building interface keeps true of a graph. *)
Record graph_inv (g : Graph) : Prop := {
  inv_vertex : ∀ v, get_bool (Vertices g) v = true →
    is_Some (adjacency g !! v) ∧ is_Some (reverseAdj g !! v);
  inv_adj : ∀ s t, get_map (adjacency g) s !! t
    = if decide ((s, t) ∈ Edges g) then Some true else None;
  inv_rev : ∀ s t, get_map (reverseAdj g) t !! s
    = if decide ((s, t) ∈ Edges g) then Some true else None;
  inv_edge : ∀ s t, (s, t) ∈ Edges g →
    s ≠ t ∧ get_bool (Vertices g) s = true ∧ get_bool (Vertices g) t = true;
  inv_nodup : NoDup (Edges g);
  inv_out : ∀ v, OutDegree g v = edges_from g v;
  inv_in : ∀ v, InDegree g v = edges_to g v;
  inv_scores : PageRankScores g = ∅;
}.

Lemma get_map_init_adj m v u : get_map (init_adj m v) u = get_map m u.
Proof.
  unfold get_map, init_adj. destruct (m !! v) eqn:Hv; [done|].
  destruct (decide (v = u)) as [->|Hne].
  - by rewrite lookup_insert_eq, Hv.
  - by rewrite lookup_insert_ne.
Qed.

Lemma init_adj_is_Some m v : is_Some (init_adj m v !! v).
Proof.
  unfold init_adj. destruct (m !! v) eqn:Hv; [by rewrite Hv|].
  by rewrite lookup_insert_eq.
Qed.

Lemma init_adj_mono m v u : is_Some (m !! u) → is_Some (init_adj m v !! u).
Proof.
  unfold init_adj. destruct (m !! v) eqn:Hv; [done|].
  intros Hu. destruct (decide (v = u)) as [->|Hne].
  - by rewrite lookup_insert_eq.
  - by rewrite lookup_insert_ne.
Qed.

Lemma get_bool_insert_true m v u :
  get_bool (<[v := true]> m) u = true ↔ v = u ∨ get_bool m u = true.
Proof.
  unfold get_bool. destruct (decide (v = u)) as [->|Hne].
  - rewrite lookup_insert_eq. naive_solver.
  - rewrite lookup_insert_ne by done. naive_solver.
Qed.

Lemma inv_New : graph_inv (New : Graph).
Proof.
  split; simpl; try done.
  - intros s t Hin. by apply not_elem_of_nil in Hin.
  - constructor.
Qed.

Lemma inv_AddVertex g v : graph_inv g → graph_inv (AddVertex g v).
Proof.
  intros I. split; simpl.
  - intros u Hu. apply get_bool_insert_true in Hu as [<-|Hu].
    + split; apply init_adj_is_Some.
    + destruct (inv_vertex g I u Hu). split; by apply init_adj_mono.
  - intros s t. rewrite get_map_init_adj. apply (inv_adj g I).
  - intros s t. rewrite get_map_init_adj. apply (inv_rev g I).
  - intros s t Hin. destruct (inv_edge g I s t Hin) as (? & ? & ?).
    split; [done|]. split; apply get_bool_insert_true; by right.
  - apply (inv_nodup g I).
  - intros u. unfold OutDegree, edges_from. simpl. rewrite get_map_init_adj.
    apply (inv_out g I).
  - intros u. unfold InDegree, edges_to. simpl. rewrite get_map_init_adj.
    apply (inv_in g I).
  - apply (inv_scores g I).
Qed.

(** The two outcomes of [AddEdge] on a graph that satisfies the invariant:
    nothing changes, or the edge is new and is recorded in the list and in
    both indices.  It never panics. *)
Lemma AddEdge_cases g s t :
  graph_inv g →
  (AddEdge g s t = Some g
   ∧ (s = t ∨ get_bool (Vertices g) s = false
      ∨ get_bool (Vertices g) t = false ∨ (s, t) ∈ Edges g))
  ∨ (s ≠ t ∧ get_bool (Vertices g) s = true ∧ get_bool (Vertices g) t = true
     ∧ ((s, t) ∉ Edges g)
     ∧ AddEdge g s t = Some
         (mkGraph (Vertices g) (Edges g ++ [(s, t)])
            (<[s := <[t := true]> (get_map (adjacency g) s)]> (adjacency g))
            (<[t := <[s := true]> (get_map (reverseAdj g) t)]> (reverseAdj g))
            (PageRankScores g))).
Proof.
  intros I. unfold AddEdge.
  destruct (bool_decide (s = t)) eqn:Hst; simpl.
  { left. split; [done|]. left. by apply bool_decide_eq_true in Hst. }
  apply bool_decide_eq_false in Hst.
  destruct (get_bool (Vertices g) s) eqn:Hs; simpl; [|left; by eauto].
  destruct (get_bool (Vertices g) t) eqn:Ht; simpl; [|left; by eauto 6].
  pose proof (inv_adj g I s t) as Hadj.
  destruct (get_bool (get_map (adjacency g) s) t) eqn:Hseen.
  { left. split; [done|]. do 3 right.
    unfold get_bool in Hseen. rewrite Hadj in Hseen.
    by destruct (decide ((s, t) ∈ Edges g)). }
  right.
  assert ((s, t) ∉ Edges g) as Hnew.
  { intros Hin. unfold get_bool in Hseen. rewrite Hadj in Hseen.
    by rewrite decide_True in Hseen. }
  destruct (inv_vertex g I s Hs) as [[a Ha] _].
  destruct (inv_vertex g I t Ht) as [_ [r Hr]].
  repeat (split; [done|]).
  unfold set_adj, get_map. by rewrite Ha, Hr.
Qed.

Lemma edges_from_snoc (l : list (string * string)) s t v :
  length (filter (λ e, e.1 = v) (l ++ [(s, t)]))
  = length (filter (λ e, e.1 = v) l) + (if decide (s = v) then 1 else 0).
Proof.
  rewrite filter_app, length_app. f_equal.
  rewrite filter_cons. simpl. by destruct (decide (s = v)).
Qed.

Lemma edges_to_snoc (l : list (string * string)) s t v :
  length (filter (λ e, e.2 = v) (l ++ [(s, t)]))
  = length (filter (λ e, e.2 = v) l) + (if decide (t = v) then 1 else 0).
Proof.
  rewrite filter_app, length_app. f_equal.
  rewrite filter_cons. simpl. by destruct (decide (t = v)).
Qed.

Lemma get_map_insert m a inner u :
  get_map (<[a := inner]> m) u = if decide (a = u) then inner else get_map m u.
Proof.
  unfold get_map. destruct (decide (a = u)) as [->|Hne].
  - by rewrite lookup_insert_eq.
  - by rewrite lookup_insert_ne.
Qed.

Lemma inv_AddEdge g s t :
  graph_inv g → ∃ g', AddEdge g s t = Some g' ∧ graph_inv g'.
Proof.
  intros I. destruct (AddEdge_cases g s t I) as [[-> _]|(Hst & Hs & Ht & Hnew & ->)].
  { by exists g. }
  eexists. split; [done|]. split; simpl.
  - intros v Hv. destruct (inv_vertex g I v Hv) as [Ha Hr]. split.
    + destruct (decide (s = v)) as [->|?];
        [by rewrite lookup_insert_eq | by rewrite lookup_insert_ne].
    + destruct (decide (t = v)) as [->|?];
        [by rewrite lookup_insert_eq | by rewrite lookup_insert_ne].
  - intros a b. rewrite get_map_insert. destruct (decide (s = a)) as [<-|Hne].
    + destruct (decide (t = b)) as [<-|Hne].
      * rewrite lookup_insert_eq. rewrite decide_True; [done|].
        apply elem_of_app. right. by apply list_elem_of_singleton.
      * rewrite lookup_insert_ne by done. rewrite (inv_adj g I).
        apply decide_ext. rewrite elem_of_app, list_elem_of_singleton.
        naive_solver.
    + rewrite (inv_adj g I). apply decide_ext.
      rewrite elem_of_app, list_elem_of_singleton. naive_solver.
  - intros a b. rewrite get_map_insert. destruct (decide (t = b)) as [<-|Hne].
    + destruct (decide (s = a)) as [<-|Hne].
      * rewrite lookup_insert_eq. rewrite decide_True; [done|].
        apply elem_of_app. right. by apply list_elem_of_singleton.
      * rewrite lookup_insert_ne by done. rewrite (inv_rev g I).
        apply decide_ext. rewrite elem_of_app, list_elem_of_singleton.
        naive_solver.
    + rewrite (inv_rev g I). apply decide_ext.
      rewrite elem_of_app, list_elem_of_singleton. naive_solver.
  - intros a b Hin. apply elem_of_app in Hin as [Hin|Hin].
    + by apply (inv_edge g I).
    + apply list_elem_of_singleton in Hin. by simplify_eq.
  - apply NoDup_app. split; [apply (inv_nodup g I)|]. split.
    + intros e He Hin. apply list_elem_of_singleton in Hin. by subst.
    + apply NoDup_singleton.
  - intros v. unfold OutDegree, edges_from. simpl.
    rewrite get_map_insert, edges_from_snoc.
    pose proof (inv_out g I v) as Hout. unfold OutDegree, edges_from in Hout.
    destruct (decide (s = v)) as [<-|Hne]; [|lia].
    rewrite map_size_insert_None; [lia|].
    rewrite (inv_adj g I). by rewrite decide_False.
  - intros v. unfold InDegree, edges_to. simpl.
    rewrite get_map_insert, edges_to_snoc.
    pose proof (inv_in g I v) as Hin. unfold InDegree, edges_to in Hin.
    destruct (decide (t = v)) as [<-|Hne]; [|lia].
    rewrite map_size_insert_None; [lia|].
    rewrite (inv_rev g I). by rewrite decide_False.
  - apply (inv_scores g I).
Qed.

(** Every sequence of calls from the new graph runs to a graph, which
    satisfies the invariant. *)
Lemma inv_run_ops ops g :
  graph_inv g → ∃ g', run_ops g ops = Some g' ∧ graph_inv g'.
Proof.
  revert g. induction ops as [|op ops IH]; intros g I; simpl.
  { by exists g. }
  destruct op as [v|s t]; simpl.
  - apply IH. by apply inv_AddVertex.
  - destruct (inv_AddEdge g s t I) as (g1 & -> & I1). simpl. by apply IH.
Qed.

Lemma run_ops_New_inv ops (g : Graph) :
  run_ops New ops = Some g → graph_inv g.
Proof.
  intros Hrun. destruct (inv_run_ops ops New inv_New) as (g' & Hrun' & I).
  rewrite Hrun in Hrun'. by simplify_eq.
Qed.

Lemma AddEdge_Vertices (g : Graph) s t g' :
  AddEdge g s t = Some g' → Vertices g' = Vertices g.
Proof.
  unfold AddEdge. intros Hadd.
  repeat (case_match; simplify_option_eq; try done).
Qed.

(** The vertices of a graph built by [ops] are those [ops] added. *)
Lemma run_ops_Vertices ops (g g' : Graph) v :
  run_ops g ops = Some g' →
  get_bool (Vertices g') v = true
  ↔ get_bool (Vertices g) v = true ∨ OpAddVertex v ∈ ops.
Proof.
  revert g. induction ops as [|op ops IH]; intros g Hrun; simpl in Hrun.
  { simplify_eq. rewrite elem_of_nil. naive_solver. }
  destruct (apply_op g op) as [g1|] eqn:Hop; simpl in Hrun; [|done].
  rewrite (IH g1 Hrun), elem_of_cons. destruct op as [u|s t]; simpl in Hop.
  - simplify_eq. simpl. rewrite get_bool_insert_true. naive_solver.
  - rewrite (AddEdge_Vertices _ _ _ _ Hop). naive_solver.
Qed.

Lemma filter_eq_absent (l : list (string * string)) e :
  e ∉ l → filter (λ x, x = e) l = [].
Proof.
  induction l as [|y l IH]; [done|]. intros Hn.
  apply not_elem_of_cons in Hn as [Hne Hn].
  rewrite filter_cons, decide_False by done. by apply IH.
Qed.

Lemma count_NoDup (l : list (string * string)) e :
  NoDup l → e ∈ l → length (filter (λ x, x = e) l) = 1.
Proof.
  induction 1 as [|x l Hx Hnd IH]; intros Hin; [by apply elem_of_nil in Hin|].
  rewrite filter_cons. apply elem_of_cons in Hin as [->|Hin].
  - rewrite decide_True by done. simpl. by rewrite filter_eq_absent.
  - rewrite decide_False by (intros ->; done). by apply IH.
Qed.

(** C3.  After every sequence of [AddVertex] and [AddEdge] calls on a new
    graph (the sequence never panics), every edge of the list has a source
    that differs from its target, and both are in the vertex set, having been
    added by the sequence; and a further [AddEdge] whose source is its
    target, or one of whose endpoints was not added as a vertex, returns the
    graph as it is. *)
Theorem AddEdge_keeps_edges_valid (ops : list GraphOp) :
  ∃ g : Graph,
    run_ops New ops = Some g
    ∧ (∀ s t, (s, t) ∈ Edges g →
         s ≠ t
         ∧ get_bool (Vertices g) s = true ∧ get_bool (Vertices g) t = true
         ∧ OpAddVertex s ∈ ops ∧ OpAddVertex t ∈ ops)
    ∧ (∀ s t, s = t ∨ OpAddVertex s ∉ ops ∨ OpAddVertex t ∉ ops →
         AddEdge g s t = Some g).
Proof.
  destruct (inv_run_ops ops New inv_New) as (g & Hrun & I).
  exists g. split; [done|].
  assert (∀ v, get_bool (Vertices g) v = true ↔ OpAddVertex v ∈ ops) as Hv.
  { intros v. rewrite (run_ops_Vertices ops New g v Hrun). simpl.
    unfold get_bool. rewrite lookup_empty. naive_solver. }
  split.
  - intros s t Hin. destruct (inv_edge g I s t Hin) as (? & Hs & Ht).
    repeat split; try done; by apply Hv.
  - intros s t Hbad.
    destruct (AddEdge_cases g s t I) as [[-> _]|(Hst & Hs & Ht & _)]; [done|].
    apply Hv in Hs, Ht. naive_solver.
Qed.

(** C4.  On a graph built by any sequence of calls, for registered endpoints
    [s ≠ t]: [AddEdge s t] twice leaves exactly one [(s, t)] in the edge
    list, and the second call returns the graph it was given, unchanged in
    every field. *)
Theorem AddEdge_idempotent (ops : list GraphOp) (s t : string) :
  s ≠ t → OpAddVertex s ∈ ops → OpAddVertex t ∈ ops →
  ∃ g g1 : Graph,
    run_ops New ops = Some g
    ∧ AddEdge g s t = Some g1
    ∧ AddEdge g1 s t = Some g1
    ∧ length (filter (λ e, e = (s, t)) (Edges g1)) = 1.
Proof.
  intros Hst Hs Ht.
  destruct (inv_run_ops ops New inv_New) as (g & Hrun & I).
  destruct (inv_AddEdge g s t I) as (g1 & Hadd & I1).
  exists g, g1. repeat (split; [done|]).
  assert ((s, t) ∈ Edges g1) as Hin.
  { destruct (AddEdge_cases g s t I) as [[Hsame Hwhy]|(_ & _ & _ & _ & Hnew)].
    - rewrite Hsame in Hadd. simplify_eq.
      destruct Hwhy as [?|[Hns|[Hnt|?]]]; [done| | |done].
      + assert (get_bool (Vertices g1) s = true); [|congruence].
        apply (run_ops_Vertices ops New g1 s Hrun). by right.
      + assert (get_bool (Vertices g1) t = true); [|congruence].
        apply (run_ops_Vertices ops New g1 t Hrun). by right.
    - rewrite Hnew in Hadd. simplify_eq. simpl.
      apply elem_of_app. right. by apply list_elem_of_singleton. }
  split.
  - destruct (AddEdge_cases g1 s t I1) as [[-> _]|(_ & _ & _ & Hnot & _)]; done.
  - apply count_NoDup; [apply (inv_nodup g1 I1)|done].
Qed.

(** C10.  After every sequence of [AddVertex] and [AddEdge] calls on a new
    graph, for every [v], [OutDegree v] is the number of entries of the edge
    list with source [v] and [InDegree v] the number with target [v]. *)
Theorem degrees_count_edges (ops : list GraphOp) :
  ∃ g : Graph,
    run_ops New ops = Some g
    ∧ ∀ v, OutDegree g v = length (filter (λ e, e.1 = v) (Edges g))
           ∧ InDegree g v = length (filter (λ e, e.2 = v) (Edges g)).
Proof.
  destruct (inv_run_ops ops New inv_New) as (g & Hrun & I).
  exists g. split; [done|]. intros v. split.
  - apply (inv_out g I).
  - apply (inv_in g I).
Qed.

End Invariant.

Example AddEdge_idempotent_witness :
  ∃ g g1 : DependencyGraph Q,
    run_ops New [OpAddVertex "a"; OpAddVertex "b"] = Some g
    ∧ AddEdge g "a" "b" = Some g1
    ∧ AddEdge g1 "a" "b" = Some g1
    ∧ length (filter (λ e, e = ("a", "b")) (Edges g1)) = 1.
Proof.
  apply (AddEdge_idempotent (T := Q) [OpAddVertex "a"; OpAddVertex "b"] "a" "b").
  - discriminate.
  - apply elem_of_cons. by left.
  - apply elem_of_cons. right. apply elem_of_cons. by left.
Defined.

(** *** PageRank *)

Section Range.
Context {R : GoRuntime} {V : Type}.

Lemma go_keys_perm (m : gmap string V) : go_keys m ≡ₚ (map_to_list m).*1.
Proof. unfold go_keys. by rewrite go_range_perm. Qed.

Lemma NoDup_go_keys (m : gmap string V) : NoDup (go_keys m).
Proof. rewrite go_keys_perm. apply NoDup_fst_map_to_list. Qed.

Lemma elem_of_go_keys (m : gmap string V) k :
  k ∈ go_keys m ↔ is_Some (m !! k).
Proof.
  rewrite go_keys_perm, list_elem_of_fmap. split.
  - intros ([k' v] & -> & Hin). apply elem_of_map_to_list in Hin. by eexists.
  - intros [v Hv]. exists (k, v). split; [done|]. by apply elem_of_map_to_list.
Qed.

Lemma length_go_keys (m : gmap string V) : length (go_keys m) = size m.
Proof.
  rewrite go_keys_perm, length_fmap. apply length_map_to_list.
Qed.

End Range.

Section PageRank.
Context {T : Type} {F64 : Float64 T} {R : GoRuntime}.
Import pagerank_spec.

Local Abbreviation Graph := (DependencyGraph T).

Lemma fill_scores_lookup vs (x : T) m u :
  fill_scores vs x m !! u = if decide (u ∈ vs) then Some x else m !! u.
Proof.
  revert m. induction vs as [|a vs IH]; intros m.
  { by rewrite decide_False by apply not_elem_of_nil. }
  simpl. rewrite IH. destruct (decide (u ∈ vs)) as [Hin|Hnin].
  - rewrite decide_True; [done|]. by apply elem_of_cons; right.
  - destruct (decide (a = u)) as [->|Hne].
    + rewrite lookup_insert_eq, decide_True; [done|]. by apply elem_of_cons; left.
    + rewrite lookup_insert_ne, decide_False; [done| |done].
      rewrite elem_of_cons. naive_solver.
Qed.

Lemma get_score_insert (m : gmap string T) a x u :
  get_score (<[a := x]> m) u = if decide (a = u) then x else get_score m u.
Proof.
  unfold get_score. destruct (decide (a = u)) as [->|Hne].
  - by rewrite lookup_insert_eq.
  - by rewrite lookup_insert_ne.
Qed.

Lemma spread_get_score (d share : T) nbs m u :
  NoDup nbs →
  get_score (spread d share nbs m) u
  = if decide (u ∈ nbs) then fadd (get_score m u) (fmul d share)
    else get_score m u.
Proof.
  intros Hnd. revert m. induction Hnd as [|a nbs Ha Hnd IH]; intros m.
  { by rewrite decide_False by apply not_elem_of_nil. }
  unfold spread in *. simpl. rewrite IH, get_score_insert.
  destruct (decide (a = u)) as [->|Hne].
  - rewrite decide_False by done. rewrite decide_True; [done|].
    by apply elem_of_cons; left.
  - apply decide_ext. rewrite elem_of_cons. naive_solver.
Qed.

Lemma spread_is_Some (d share : T) nbs m u :
  is_Some (spread d share nbs m !! u) ↔ is_Some (m !! u) ∨ u ∈ nbs.
Proof.
  revert m. induction nbs as [|a nbs IH]; intros m.
  { rewrite elem_of_nil. naive_solver. }
  unfold spread in *. simpl. rewrite IH, elem_of_cons.
  destruct (decide (a = u)) as [->|Hne].
  - rewrite lookup_insert_eq. naive_solver.
  - rewrite lookup_insert_ne by done. naive_solver.
Qed.

Lemma out_neighbor_keys (g : Graph) v u :
  u ∈ go_keys (get_map (adjacency g) v) ↔ out_neighbor g v u = true.
Proof.
  unfold out_neighbor. rewrite elem_of_go_keys. symmetry.
  apply bool_decide_eq_true.
Qed.

Lemma out_neighbor_degree (g : Graph) v u :
  out_neighbor g v u = true → (0 <? OutDegree g v) = true.
Proof.
  unfold out_neighbor, OutDegree. intros Hn. apply bool_decide_eq_true in Hn.
  apply Nat.ltb_lt. destruct Hn as [b Hb].
  destruct (decide (size (get_map (adjacency g) v) = 0)) as [Hz|]; [|lia].
  apply map_size_empty_inv in Hz. rewrite Hz in Hb. by rewrite lookup_empty in Hb.
Qed.

(** What one vertex [v] adds to the new score of [u]. *)
Lemma distribute_from_get_score (g : Graph) d cur m v u :
  get_score (distribute_from g d cur m v) u
  = if (0 <? OutDegree g v) && out_neighbor g v u
    then fadd (get_score m u) (share_of g d cur v)
    else get_score m u.
Proof.
  unfold distribute_from. fold (OutDegree g v).
  destruct (OutDegree g v =? 0) eqn:Hz.
  { apply Nat.eqb_eq in Hz. by rewrite Hz. }
  rewrite spread_get_score by apply NoDup_go_keys.
  apply Nat.eqb_neq in Hz.
  replace (0 <? OutDegree g v) with true by (symmetry; apply Nat.ltb_lt; lia).
  simpl. destruct (out_neighbor g v u) eqn:Hn.
  - rewrite decide_True; [done|]. by apply out_neighbor_keys.
  - rewrite decide_False; [done|]. rewrite out_neighbor_keys. congruence.
Qed.

Lemma distribute_from_is_Some (g : Graph) d cur m v u :
  is_Some (distribute_from g d cur m v !! u)
  ↔ is_Some (m !! u) ∨ out_neighbor g v u = true.
Proof.
  unfold distribute_from. fold (OutDegree g v).
  destruct (OutDegree g v =? 0) eqn:Hz.
  - apply Nat.eqb_eq in Hz. split; [by left|]. intros [?|Hn]; [done|].
    apply out_neighbor_degree, Nat.ltb_lt in Hn. lia.
  - by rewrite spread_is_Some, out_neighbor_keys.
Qed.

Lemma distribute_get_score (g : Graph) d cur vs m u :
  get_score (foldl (distribute_from g d cur) m vs) u
  = foldl (λ acc v, if (0 <? OutDegree g v) && out_neighbor g v u
                    then fadd acc (share_of g d cur v) else acc)
          (get_score m u) vs.
Proof.
  revert m. induction vs as [|v vs IH]; intros m; simpl; [done|].
  by rewrite IH, distribute_from_get_score.
Qed.

Lemma distribute_is_Some (g : Graph) d cur vs m u :
  is_Some (foldl (distribute_from g d cur) m vs !! u)
  ↔ is_Some (m !! u) ∨ ∃ v, v ∈ vs ∧ out_neighbor g v u = true.
Proof.
  revert m. induction vs as [|v vs IH]; intros m; simpl.
  { setoid_rewrite elem_of_nil. naive_solver. }
  rewrite IH, distribute_from_is_Some. setoid_rewrite elem_of_cons.
  naive_solver.
Qed.

(** The out-neighbours of a graph are vertices of it. *)
Definition closed (g : Graph) : Prop :=
  ∀ v u, out_neighbor g v u = true → is_Some (Vertices g !! u).

Lemma graph_inv_closed g : graph_inv g → closed g.
Proof.
  intros I v u Hn. unfold out_neighbor in Hn. apply bool_decide_eq_true in Hn.
  rewrite (inv_adj g I) in Hn. destruct (decide ((v, u) ∈ Edges g)) as [Hin|].
  - destruct (inv_edge g I v u Hin) as (_ & _ & Hu). unfold get_bool in Hu.
    by destruct (Vertices g !! u).
  - by destruct Hn.
Qed.

(** An iteration of the code is an iteration of the specification. *)
Lemma pagerank_iteration_spec (g : Graph) d cur :
  closed g →
  pagerank_iteration g d (vertex_count g) cur = iteration g d cur.
Proof.
  intros Hclosed. apply map_eq. intros u.
  unfold pagerank_iteration, iteration. rewrite map_lookup_imap.
  set (m0 := fill_scores _ _ _).
  assert (m0 !! u = if decide (is_Some (Vertices g !! u))
                    then Some (fdiv (fsub fone d) (vertex_count g)) else None)
    as Hm0.
  { unfold m0. rewrite fill_scores_lookup, lookup_empty.
    apply decide_ext, elem_of_go_keys. }
  destruct (Vertices g !! u) as [b|] eqn:Hu; simpl.
  - rewrite decide_True in Hm0 by done.
    assert (is_Some (foldl (distribute_from g d cur) m0 (go_keys (Vertices g)) !! u))
      as [x Hx].
    { apply distribute_is_Some. left. by rewrite Hm0. }
    rewrite Hx. f_equal.
    assert (x = get_score (foldl (distribute_from g d cur) m0 (go_keys (Vertices g))) u)
      as -> by (unfold get_score; by rewrite Hx).
    rewrite distribute_get_score. unfold new_score, get_score. by rewrite Hm0.
  - rewrite decide_False in Hm0 by (by intros [? ?]).
    apply eq_None_not_Some. rewrite distribute_is_Some, Hm0.
    intros [[? ?]|(v & _ & Hn)]; [done|].
    apply Hclosed in Hn. rewrite Hu in Hn. by destruct Hn.
Qed.

Lemma fill_scores_initial (g : Graph) :
  fill_scores (go_keys (Vertices g)) (fdiv fone (vertex_count g)) ∅
  = initial_scores g.
Proof.
  apply map_eq. intros u. unfold initial_scores.
  rewrite fill_scores_lookup, lookup_fmap, lookup_empty.
  destruct (Vertices g !! u) as [b|] eqn:Hu; simpl.
  - rewrite decide_True; [done|]. apply elem_of_go_keys. by rewrite Hu.
  - rewrite decide_False; [done|]. rewrite elem_of_go_keys, Hu. by intros [? ?].
Qed.

(** The scores [computePageRank] leaves in a graph with a vertex. *)
Lemma computePageRank_scores (g : Graph) d (iterations : Z) :
  closed g → size (Vertices g) ≠ 0 →
  PageRankScores (computePageRank g d iterations)
  = pagerank g d (Z.to_nat iterations).
Proof.
  intros Hclosed Hn. unfold computePageRank.
  apply Nat.eqb_neq in Hn. rewrite Hn. simpl.
  fold (vertex_count g). rewrite fill_scores_initial. unfold pagerank.
  induction (Z.to_nat iterations) as [|k IH]; simpl; [done|].
  by rewrite IH, pagerank_iteration_spec.
Qed.

Lemma pagerank_no_vertex (g : Graph) d k :
  size (Vertices g) = 0 → pagerank g d k = ∅.
Proof.
  intros Hz. apply map_size_empty_inv in Hz.
  destruct k as [|k]; simpl.
  - unfold initial_scores. rewrite Hz. apply fmap_empty.
  - unfold iteration. rewrite Hz. apply map_eq. intros u.
    by rewrite map_lookup_imap, !lookup_empty.
Qed.

(** C1.  On the graph built by any sequence of [AddVertex] and [AddEdge]
    calls, [Analyze] leaves as [PageRankScores] the scores of the
    specification's algorithm: from [1/N] everywhere, 100 iterations at
    damping 0.85, each replacing the whole map by the base mass
    [(1-0.85)/N] plus, for each vertex of out-degree above 0, its current
    score over its out-degree times 0.85 added to every out-neighbour; the
    map of the last iteration is the output as it is. *)
Theorem Analyze_is_specified_pagerank (ops : list GraphOp) :
  ∃ g : Graph,
    run_ops New ops = Some g
    ∧ PageRankScores (Analyze g) = pagerank g flit_085 100.
Proof.
  destruct (inv_run_ops (T:=T) ops New inv_New) as (g & Hrun & I).
  exists g. split; [done|]. unfold Analyze.
  destruct (decide (size (Vertices g) = 0)) as [Hz|Hnz].
  - rewrite pagerank_no_vertex by done. unfold computePageRank.
    apply Nat.eqb_eq in Hz. rewrite Hz. apply (inv_scores g I).
  - rewrite computePageRank_scores; [done| |done]. by apply graph_inv_closed.
Qed.

(** Sums in which no vertex, or a single one, takes part. *)
Lemma fold_shares_none (f : string → bool) (c : string → T) acc vs :
  (∀ v, v ∈ vs → f v = false) →
  foldl (λ acc v, if f v then fadd acc (c v) else acc) acc vs = acc.
Proof.
  revert acc. induction vs as [|a vs IH]; intros acc Hf; simpl; [done|].
  rewrite (Hf a) by (by apply elem_of_cons; left).
  apply IH. intros v Hv. apply Hf. by apply elem_of_cons; right.
Qed.

Lemma fold_shares_single (f : string → bool) (c : string → T) acc vs v0 :
  NoDup vs → v0 ∈ vs → f v0 = true → (∀ v, v ≠ v0 → f v = false) →
  foldl (λ acc v, if f v then fadd acc (c v) else acc) acc vs
  = fadd acc (c v0).
Proof.
  intros Hnd. revert acc. induction Hnd as [|a vs Ha Hnd IH];
    intros acc Hin Hv0 Hothers; [by apply elem_of_nil in Hin|].
  simpl. destruct (decide (a = v0)) as [->|Hne].
  - rewrite Hv0. apply fold_shares_none. intros v Hv. apply Hothers.
    by intros ->.
  - rewrite (Hothers a Hne). apply IH; [|done..].
    apply elem_of_cons in Hin as [?|?]; [congruence|done].
Qed.

Lemma new_score_no_in_neighbor (g : Graph) d cur u :
  (∀ v, out_neighbor g v u = false) →
  new_score g d cur u = fdiv (fsub fone d) (vertex_count g).
Proof.
  intros Hnone. unfold new_score.
  apply (fold_shares_none (λ v, (0 <? OutDegree g v) && out_neighbor g v u)).
  intros v _. by rewrite Hnone, andb_false_r.
Qed.

Lemma new_score_one_in_neighbor (g : Graph) d cur u v0 :
  is_Some (Vertices g !! v0) → out_neighbor g v0 u = true →
  (∀ v, v ≠ v0 → out_neighbor g v u = false) →
  new_score g d cur u
  = fadd (fdiv (fsub fone d) (vertex_count g)) (share_of g d cur v0).
Proof.
  intros Hv0 Hn Hothers. unfold new_score.
  apply (fold_shares_single (λ v, (0 <? OutDegree g v) && out_neighbor g v u)).
  - apply NoDup_go_keys.
  - by apply elem_of_go_keys.
  - by rewrite Hn, (out_neighbor_degree g v0 u Hn).
  - intros v Hv. by rewrite (Hothers v Hv), andb_false_r.
Qed.

Lemma out_neighbor_edge (g : Graph) v u :
  graph_inv g → out_neighbor g v u = true ↔ (v, u) ∈ Edges g.
Proof.
  intros I. unfold out_neighbor. rewrite bool_decide_eq_true, (inv_adj g I).
  destruct (decide ((v, u) ∈ Edges g)); [by split; eauto|].
  split; [by intros [? ?]|done].
Qed.

Lemma pagerank_S_lookup (g : Graph) d k u :
  pagerank g d (S k) !! u
  = (λ _, new_score g d (pagerank g d k) u) <$> Vertices g !! u.
Proof.
  simpl. unfold iteration at 1. rewrite map_lookup_imap.
  by destruct (Vertices g !! u).
Qed.

(** A vertex no edge touches has the base mass after every iteration. *)
Lemma isolated_vertex_base (ops : list GraphOp) (g : Graph) v (k : Z) d :
  run_ops New ops = Some g →
  is_Some (Vertices g !! v) →
  (∀ s t, (s, t) ∈ Edges g → s ≠ v ∧ t ≠ v) →
  (1 ≤ k)%Z →
  PageRankScores (computePageRank g d k) !! v
  = Some (fdiv (fsub fone d) (of_len (size (Vertices g)))).
Proof.
  intros Hrun Hv Hiso Hk.
  pose proof (run_ops_New_inv ops g Hrun) as I.
  rewrite computePageRank_scores; [|by apply graph_inv_closed|].
  - destruct (Z.to_nat k) as [|n] eqn:Hn; [lia|].
    rewrite pagerank_S_lookup. destruct Hv as [b ->]. simpl. f_equal.
    apply new_score_no_in_neighbor. intros u.
    destruct (out_neighbor g u v) eqn:Hn'; [|done].
    apply out_neighbor_edge in Hn'; [|done].
    destruct (Hiso u v Hn') as [_ ?]. done.
  - intros Hz. apply map_size_empty_inv in Hz. rewrite Hz in Hv.
    rewrite lookup_empty in Hv. by destruct Hv.
Qed.

(** In the cycle [a → b → c → a] every vertex has out-degree 1 and a
    single in-neighbour, so equal scores stay equal. *)
Section ThreeCycle.
Variables (g : Graph) (a b c : string) (d : T).
Hypothesis I : graph_inv g.
Hypothesis Hvertices : dom (Vertices g) = {[a; b; c]}.
Hypothesis Hedges : Edges g ≡ₚ [(a, b); (b, c); (c, a)].

Lemma cycle_edge s t :
  out_neighbor g s t = true ↔ (s, t) ∈ [(a, b); (b, c); (c, a)].
Proof. by rewrite (out_neighbor_edge g s t I), Hedges. Qed.

Lemma cycle_distinct : a ≠ b ∧ b ≠ c ∧ c ≠ a.
Proof.
  repeat split; eapply (inv_edge g I); rewrite Hedges; set_solver.
Qed.

Lemma cycle_vertex v : is_Some (Vertices g !! v) ↔ v ∈ [a; b; c].
Proof. rewrite <- elem_of_dom, Hvertices. set_solver. Qed.

Lemma cycle_out_degree v : v ∈ [a; b; c] → OutDegree g v = 1.
Proof.
  intros Hv. rewrite (inv_out g I). unfold edges_from. rewrite Hedges.
  destruct cycle_distinct as (Hab & Hbc & Hca).
  rewrite !filter_cons, filter_nil. simpl.
  repeat case_decide; set_solver.
Qed.

Lemma cycle_new_score cur x v :
  (∀ u, u ∈ [a; b; c] → get_score cur u = x) → v ∈ [a; b; c] →
  new_score g d cur v
  = fadd (fdiv (fsub fone d) (vertex_count g))
         (fmul d (fdiv x (of_len 1))).
Proof.
  intros Hcur Hv. destruct cycle_distinct as (Hab & Hbc & Hca).
  assert (∃ p, p ∈ [a; b; c] ∧ out_neighbor g p v = true
               ∧ ∀ q, q ≠ p → out_neighbor g q v = false) as (p & Hp & Hpv & Hq).
  { assert (∀ p, (p, v) ∈ [(a, b); (b, c); (c, a)] →
                 ∀ q, q ≠ p → out_neighbor g q v = false) as Hone.
    { intros p Hpv q Hne. destruct (out_neighbor g q v) eqn:Hqv; [|done].
      apply cycle_edge in Hqv. set_solver. }
    repeat (apply elem_of_cons in Hv as [->|Hv]).
    - exists c. split; [set_solver|]. split; [apply cycle_edge|apply Hone]; set_solver.
    - exists a. split; [set_solver|]. split; [apply cycle_edge|apply Hone]; set_solver.
    - exists b. split; [set_solver|]. split; [apply cycle_edge|apply Hone]; set_solver.
    - by apply elem_of_nil in Hv. }
  rewrite (new_score_one_in_neighbor g d cur v p); [|by apply cycle_vertex|done..].
  unfold share_of. by rewrite (Hcur p Hp), (cycle_out_degree p Hp).
Qed.

Lemma cycle_scores_equal k :
  ∃ x, ∀ v, pagerank g d k !! v = if decide (v ∈ [a; b; c]) then Some x else None.
Proof.
  induction k as [|k [x IH]].
  - exists (fdiv fone (vertex_count g)). intros v. simpl. unfold initial_scores.
    rewrite lookup_fmap. destruct (decide (v ∈ [a; b; c])) as [Hv|Hv].
    + apply cycle_vertex in Hv as [? ->]. done.
    + rewrite <- cycle_vertex, <- eq_None_not_Some in Hv. by rewrite Hv.
  - exists (fadd (fdiv (fsub fone d) (vertex_count g)) (fmul d (fdiv x (of_len 1)))).
    intros v. rewrite pagerank_S_lookup.
    destruct (decide (v ∈ [a; b; c])) as [Hv|Hv].
    + rewrite (cycle_new_score _ x v); [|
        intros u Hu; unfold get_score; by rewrite IH, decide_True | done].
      apply cycle_vertex in Hv as [? ->]. done.
    + rewrite <- cycle_vertex, <- eq_None_not_Some in Hv. by rewrite Hv.
Qed.

End ThreeCycle.

(** C9.  On a graph built from the new one whose vertices are exactly [a],
    [b], [c] and whose edges are exactly [a → b], [b → c], [c → a], the
    PageRank scores after the 100 iterations of [Analyze] are all equal. *)
Theorem three_cycle_scores_equal (ops : list GraphOp) (g : Graph) (a b c : string) :
  run_ops New ops = Some g →
  dom (Vertices g) = {[a; b; c]} →
  Edges g ≡ₚ [(a, b); (b, c); (c, a)] →
  ∃ x, PageRankScores (Analyze g) !! a = Some x
       ∧ PageRankScores (Analyze g) !! b = Some x
       ∧ PageRankScores (Analyze g) !! c = Some x.
Proof.
  intros Hrun Hv He. pose proof (run_ops_New_inv ops g Hrun) as I.
  unfold Analyze. rewrite computePageRank_scores.
  - destruct (cycle_scores_equal g a b c flit_085 I Hv He (Z.to_nat 100))
      as [x Hx].
    exists x. rewrite !Hx. repeat split; apply decide_True; set_solver.
  - by apply graph_inv_closed.
  - intros Hz. apply map_size_empty_inv in Hz. rewrite Hz in Hv. set_solver.
Qed.

End PageRank.

(** *** Hotspots *)

Section Hotspots.
Context {T : Type} {F64 : Float64 T} {R : GoRuntime}.

Local Abbreviation Graph := (DependencyGraph T).




End Hotspots.


Lemma hotter_StrictWeak_binary64 (l : list (HotspotEntry float)) :
  Forall (λ e, PrimFloat.is_nan (Score e) = false) l → StrictWeak hotter l.
Proof. apply (fgtb_StrictWeak_binary64 Score). Qed.




(** C8, as the code has it.  On a graph of exactly 4 vertices built from the
    new one, a vertex that no edge touches has, after any number of
    iterations from one on at damping 0.85, exactly the score
    [(1 - 0.85) / 4] as the arithmetic of the code evaluates it.  In double
    precision that is 0x1.3333333333334p-5, about 0.037500000000000006;
    in exact arithmetic it is 3/80 = 0.0375. *)
Theorem isolated_vertex_score :
  (∀ (R : GoRuntime) (T : Type) (F64 : Float64 T) (ops : list GraphOp)
     (g : DependencyGraph T) (v : string) (k : Z),
     run_ops New ops = Some g →
     size (Vertices g) = 4 →
     is_Some (Vertices g !! v) →
     (∀ s t, (s, t) ∈ Edges g → s ≠ v ∧ t ≠ v) →
     (1 ≤ k)%Z →
     PageRankScores (computePageRank g flit_085 k) !! v
     = Some (fdiv (fsub fone flit_085) (of_len 4)))
  ∧ (fdiv (fsub fone flit_085) (of_len 4) : float) = 0x1.3333333333334p-5%float
  ∧ ((fdiv (fsub fone flit_085) (of_len 4) : Q) == 3 # 80)%Q.
Proof.
  split; [|split].
  - intros R T F64 ops g v k Hrun Hsize Hv Hiso Hk.
    rewrite <- Hsize. by apply (isolated_vertex_base ops).
  - reflexivity.
  - reflexivity.
Qed.

(** Four vertices, of which ["d"] is isolated, scored in double precision. *)
Definition four_ops : list GraphOp :=
  [OpAddVertex "a"; OpAddVertex "b"; OpAddVertex "c"; OpAddVertex "d";
   OpAddEdge "a" "b"; OpAddEdge "b" "c"].

Definition four_graph : DependencyGraph float :=
  default New (run_ops New four_ops).

Example isolated_vertex_score_witness :
  PageRankScores (Analyze four_graph) !! "d"
  = Some (fdiv (fsub fone flit_085) (of_len 4)).
Proof.
  apply (proj1 isolated_vertex_score canonical_runtime float binary64
               four_ops four_graph "d" 100%Z).
  - reflexivity.
  - reflexivity.
  - by eexists.
  - intros s t Hin. vm_compute in Hin.
    repeat (apply elem_of_cons in Hin as [Hin|Hin]; [by simplify_eq|]).
    by apply elem_of_nil in Hin.
  - lia.
Defined.

(** The double nearest 0.0375: the quotient of 375 by 10000, both exact,
    correctly rounded. *)
Definition double_0_0375 : float := 0x1.3333333333333p-5%float.

Lemma double_0_0375_nearest :
  PrimFloat.div (PrimFloat.of_uint63 (Uint63.of_Z 375))
                (PrimFloat.of_uint63 (Uint63.of_Z 10000))
  = double_0_0375.
Proof. reflexivity. Qed.

(** C8, as stated, fails in the arithmetic of the code: the score of the
    isolated vertex ["d"] of [four_graph] after [Analyze] is the double
    5404319552844596 * 2^-57, which is neither the double nearest 0.0375
    nor, as a rational, 3/80. *)
Lemma isolated_vertex_score_not_0_0375 :
  ∃ x : float,
    PageRankScores (Analyze four_graph) !! "d" = Some x
    ∧ PrimFloat.eqb x double_0_0375 = false
    ∧ Prim2SF x = S754_finite false 5404319552844596 (-57)
    ∧ ¬ (5404319552844596 # 2 ^ 57 == 3 # 80)%Q.
Proof.
  exists 0x1.3333333333334p-5%float. split; [|split; [|split]].
  - vm_compute. reflexivity.
  - reflexivity.
  - reflexivity.
  - intros Heq. vm_compute in Heq. discriminate.
Qed.

(** The cycle [A → B → C → A], scored in double precision. *)
Definition cycle_ops : list GraphOp :=
  [OpAddVertex "A"; OpAddVertex "B"; OpAddVertex "C";
   OpAddEdge "A" "B"; OpAddEdge "B" "C"; OpAddEdge "C" "A"].

Definition cycle_graph : DependencyGraph float :=
  default New (run_ops New cycle_ops).

Example three_cycle_scores_equal_witness :
  ∃ x, PageRankScores (Analyze cycle_graph) !! "A" = Some x
       ∧ PageRankScores (Analyze cycle_graph) !! "B" = Some x
       ∧ PageRankScores (Analyze cycle_graph) !! "C" = Some x.
Proof.
  apply (three_cycle_scores_equal cycle_ops cycle_graph "A" "B" "C").
  - reflexivity.
  - vm_compute. reflexivity.
  - reflexivity.
Defined.

End graph_facts.

(** ** The declaration graph *)

Module report_facts.
Import report.

(** The word-boundary match and the file name, on small inputs. *)
Example matchGoTypeRef_word :
  matchGoTypeRef "func f(u User) {}" "User" = true
  ∧ matchGoTypeRef "type UserService struct" "User" = false
  ∧ matchGoTypeRef "var x my_User" "User" = false
  ∧ matchGoTypeRef "User" "User" = true
  ∧ matchGoTypeRef "Use" "User" = false
  ∧ matchGoTypeRef "UserUser User" "User" = true.
Proof. by vm_compute. Qed.

Example FileName_last_segment :
  parser.FileName (parser.mkParsedFile "svc/api/users.go" [] []) = "users.go"
  ∧ parser.FileName (parser.mkParsedFile "main.go" [] []) = "main.go".
Proof. by vm_compute. Qed.

Section Caps.
Context {T : Type} {F64 : Float64 T} {R : GoRuntime}.



Lemma kept_take (cands : list (candidate T)) :
  kept cands = take 5 (sort_Slice better cands).
Proof.
  unfold kept, maxOutPerNode.
  destruct (Nat.ltb_spec (length (sort_Slice better cands)) 5); [|done].
  by rewrite !take_ge by lia.
Qed.

(** The candidates kept for a source: at most 5, taken from its
    candidates, and none of those left out scores higher than a kept one. *)
Lemma kept_best (cands : list (candidate T)) :
  length (kept cands) = min 5 (length cands)
  ∧ kept cands ⊆ cands
  ∧ (StrictWeak better cands →
     ∀ x y, x ∈ kept cands → y ∈ drop 5 (sort_Slice better cands) →
            better y x = false).
Proof.
  rewrite kept_take. split; [|split].
  - by rewrite length_take, sort_Slice_perm.
  - rewrite <- (sort_Slice_perm _ better cands) at 2. apply subseteq_take.
  - intros SW x y Hx Hy. eapply SortedBy_take_drop; [|exact Hx|exact Hy].
    by apply sort_Slice_sorted.
Qed.








End Caps.

(** In double precision the candidates of a source are ordered by their
    scores when none is NaN. *)
Lemma better_StrictWeak_binary64 (cands : list (candidate float)) :
  Forall (λ c, PrimFloat.is_nan (tgtScore c) = false) cands →
  StrictWeak better cands.
Proof. apply (fgtb_StrictWeak_binary64 tgtScore). Qed.

(** *** The four strategies as one primitive

    Each strategy walks over pairs of nodes and, where its test passes,
    records the pair under its key unless the key was seen.  A pair that
    passes the test is a proposal; recording is the same for all. *)

Section Proposals.
Context {T : Type} {F64 : Float64 T}.
Variable nodeScores : gmap string T.

(** A proposal: source id, target id, key. *)
Definition proposal : Type := string * string * string.
Definition p_src (p : proposal) : string := p.1.1.
Definition p_tgt (p : proposal) : string := p.1.2.
Definition p_key (p : proposal) : string := p.2.

Definition propose (st : EdgeState T) (p : proposal) : EdgeState T :=
  if bool_decide (p_key p ∈ seen st) then st
  else add_candidate nodeScores st (p_src p) (p_tgt p) (p_key p).

Definition run (st : EdgeState T) (ps : list proposal) : EdgeState T :=
  foldl propose st ps.

(** The targets recorded for a source, and the number of candidate edges. *)
Definition targets_of (st : EdgeState T) (s : string) : list string :=
  target <$> default [] (outgoing st !! s).

Definition edge_count (st : EdgeState T) : nat :=
  map_fold (λ _ cands n, length cands + n) 0 (outgoing st).

Lemma run_app st ps qs : run st (ps ++ qs) = run (run st ps) qs.
Proof. apply foldl_app. Qed.

(** A loop whose body is a run of proposals is the run of them all. *)
Lemma foldl_run {X} (body : EdgeState T → X → EdgeState T)
    (f : X → list proposal) xs st :
  (∀ st x, x ∈ xs → body st x = run st (f x)) →
  foldl body st xs = run st (xs ≫= f).
Proof.
  revert st. induction xs as [|x xs IH]; intros st Hbody; [done|].
  simpl. rewrite run_app, <- Hbody by (by apply elem_of_cons; left).
  apply IH. intros st' x' Hx'. apply Hbody. by apply elem_of_cons; right.
Qed.

Lemma targets_of_add st s t ek u :
  targets_of (add_candidate nodeScores st s t ek) u
  = if decide (s = u) then targets_of st u ++ [t] else targets_of st u.
Proof.
  unfold targets_of, add_candidate. simpl.
  destruct (decide (s = u)) as [->|Hne].
  - rewrite lookup_insert_eq. simpl. by rewrite fmap_app.
  - by rewrite lookup_insert_ne.
Qed.

Lemma edge_count_add st s t ek :
  edge_count (add_candidate nodeScores st s t ek) = S (edge_count st).
Proof.
  unfold edge_count, add_candidate. simpl.
  destruct (outgoing st !! s) as [l|] eqn:Hs; simpl.
  - rewrite <- insert_delete_eq.
    rewrite map_fold_insert_L; [|intros; lia|apply lookup_delete_eq].
    rewrite (map_fold_delete_L _ _ s l (outgoing st)); [|intros; lia|done].
    rewrite length_app. simpl. lia.
  - rewrite map_fold_insert_L; [done|intros; lia|done].
Qed.

(** The keys seen after a run: those seen before, and those proposed. *)
Lemma seen_run st ps : seen (run st ps) = seen st ∪ list_to_set (p_key <$> ps).
Proof.
  revert st. induction ps as [|p ps IH]; intros st; simpl.
  { set_solver. }
  rewrite IH. unfold propose. case_bool_decide; simpl; set_solver.
Qed.

(** What is recorded stays recorded. *)
Lemma targets_of_run st ps s t :
  t ∈ targets_of st s → t ∈ targets_of (run st ps) s.
Proof.
  revert st. induction ps as [|p ps IH]; intros st Hin; [done|].
  simpl. apply IH. unfold propose. case_bool_decide; [done|].
  rewrite targets_of_add. case_decide; [|done].
  apply elem_of_app. by left.
Qed.

(** Every key seen stands for a recorded edge of some proposal that
    satisfies [P]. *)
Definition recorded (P : proposal → Prop) (st : EdgeState T) : Prop :=
  ∀ ek, ek ∈ seen st →
    ∃ p, P p ∧ p_key p = ek ∧ p_tgt p ∈ targets_of st (p_src p).

Lemma recorded_run P st ps :
  recorded P st → Forall P ps → recorded P (run st ps).
Proof.
  revert st. induction ps as [|p ps IH]; intros st Hrec HP; [done|].
  apply Forall_cons in HP as [Hp HP]. simpl. apply IH; [|done].
  unfold propose. case_bool_decide as Hseen; [done|].
  intros ek Hek. simpl in Hek. apply elem_of_union in Hek as [Hek|Hek].
  - apply elem_of_singleton in Hek as ->. exists p. split; [done|].
    split; [done|]. rewrite targets_of_add, decide_True by done.
    apply elem_of_app. right. by apply list_elem_of_singleton.
  - destruct (Hrec ek Hek) as (q & Hq & Hkey & Hin). exists q.
    split; [done|]. split; [done|]. rewrite targets_of_add.
    case_decide; [|done]. apply elem_of_app. by left.
Qed.

(** Proposals with fresh, distinct keys are all recorded. *)
Lemma run_fresh st ps :
  NoDup (p_key <$> ps) → (∀ p, p ∈ ps → p_key p ∉ seen st) →
  edge_count (run st ps) = edge_count st + length ps
  ∧ ∀ p, p ∈ ps → p_tgt p ∈ targets_of (run st ps) (p_src p).
Proof.
  revert st. induction ps as [|p ps IH]; intros st Hnd Hfresh.
  { split; [simpl; lia|]. intros p Hp. by apply elem_of_nil in Hp. }
  rewrite fmap_cons in Hnd. apply NoDup_cons in Hnd as [Hp Hnd].
  assert (run st (p :: ps)
          = run (add_candidate nodeScores st (p_src p) (p_tgt p) (p_key p)) ps)
    as ->.
  { unfold run. simpl. unfold propose at 2.
    by rewrite bool_decide_eq_false_2
      by (apply Hfresh; by apply elem_of_cons; left). }
  destruct (IH (add_candidate nodeScores st (p_src p) (p_tgt p) (p_key p)) Hnd)
    as [Hcount Hall].
  { intros q Hq. simpl. rewrite not_elem_of_union, not_elem_of_singleton. split.
    - intros Heq. apply Hp. rewrite <- Heq. by apply list_elem_of_fmap_2.
    - apply Hfresh. by apply elem_of_cons; right. }
  split.
  - rewrite Hcount, edge_count_add. simpl. lia.
  - intros q Hq. apply elem_of_cons in Hq as [->|Hq]; [|by apply Hall].
    apply targets_of_run. rewrite targets_of_add, decide_True by done.
    apply elem_of_app. right. by apply list_elem_of_singleton.
Qed.

(** A proposal of a run is recorded by the run, or its key was seen before
    the run, or an earlier proposal of the run with the same key was
    recorded. *)
Lemma run_links st ps p :
  p ∈ ps →
  p_key p ∈ seen st
  ∨ ∃ q, q ∈ ps ∧ p_key q = p_key p
         ∧ p_tgt q ∈ targets_of (run st ps) (p_src q).
Proof.
  revert st. induction ps as [|x ps IH]; intros st Hp;
    [by apply elem_of_nil in Hp|].
  assert (p_key x ∉ seen st →
          p_tgt x ∈ targets_of (run st (x :: ps)) (p_src x)) as Hx.
  { intros Hnew. simpl. apply targets_of_run. unfold propose.
    rewrite bool_decide_eq_false_2 by done.
    rewrite targets_of_add, decide_True by done.
    apply elem_of_app. right. by apply list_elem_of_singleton. }
  apply elem_of_cons in Hp as [->|Hp].
  - destruct (decide (p_key x ∈ seen st)) as [?|Hnew]; [by left|].
    right. exists x. split; [by apply elem_of_cons; left|]. split; [done|].
    by apply Hx.
  - destruct (IH (propose st x) Hp) as [Hseen|(q & Hq & Hk & Ht)].
    + unfold propose in Hseen. case_bool_decide as Hold; [by left|].
      simpl in Hseen. apply elem_of_union in Hseen as [Hkey|?]; [|by left].
      apply elem_of_singleton in Hkey. right. exists x.
      split; [by apply elem_of_cons; left|]. split; [done|]. by apply Hx.
    + right. exists q. split; [by apply elem_of_cons; right|]. by split.
Qed.

(** A run records the edges of its proposals and no other. *)
Lemma run_targets_origin st ps s t :
  t ∈ targets_of (run st ps) s →
  t ∈ targets_of st s ∨ ∃ p, p ∈ ps ∧ p_src p = s ∧ p_tgt p = t.
Proof.
  revert st. induction ps as [|x ps IH]; intros st Ht; [by left|].
  simpl in Ht. apply IH in Ht as [Ht|(p & Hp & Hs & Hpt)].
  - unfold propose in Ht. case_bool_decide as Hold; [by left|].
    rewrite targets_of_add in Ht. case_decide as Hsrc; [|by left].
    apply elem_of_app in Ht as [?|Ht]; [by left|].
    apply list_elem_of_singleton in Ht. right. exists x.
    split; [by apply elem_of_cons; left|]. by split.
  - right. exists p. split; [by apply elem_of_cons; right|]. by split.
Qed.



End Proposals.

Section Strategies.
Context {T : Type} {F64 : Float64 T} {R : GoRuntime}.
Variable nodeScores : gmap string T.

(** The proposal of an edge from the node [src] to the node [tgt]. *)
Definition pair_proposal (src tgt : di) : proposal :=
  (node_id src, node_id tgt, edge_key (node_id src) tgt).

Definition cross_ref_proposals (fpK cs : string) (d tgt : di) : list proposal :=
  if bool_decide (fp tgt = fpK) then []
  else if bool_decide (name tgt = name d) || (String.length (name tgt) <=? 4)
  then []
  else if matchGoTypeRef cs (name tgt) then [pair_proposal d tgt] else [].

Definition strategy1_proposals (ad : list di)
    (fileContents : gmap string string) (fileNodes : gmap string (list di))
  : list proposal :=
  go_range fileContents ≫= λ kv,
    default [] (fileNodes !! kv.1) ≫= λ d,
      ad ≫= cross_ref_proposals kv.1 kv.2 d.

Definition colocate_proposals (i : nat) (src : di) (jt : nat * di)
  : list proposal :=
  if (i =? jt.1) || bool_decide (name jt.2 = name src) then []
  else [pair_proposal src jt.2].

Definition file_proposals (nodesInFile : list di) : list proposal :=
  if (length nodesInFile <? 2) || (20 <? length nodesInFile) then []
  else indexed nodesInFile ≫= λ src,
         indexed nodesInFile ≫= colocate_proposals src.1 src.2.

Definition strategy2_proposals (fileNodes : gmap string (list di))
  : list proposal :=
  go_range fileNodes ≫= λ kv, file_proposals kv.2.

Definition service_proposals (cs : string) (src tgt : di) : list proposal :=
  if negb (bool_decide (kind tgt = parser.DeclMessage))
     && negb (bool_decide (kind tgt = parser.DeclRPC))
  then []
  else if String.length (name tgt) <=? 4 then []
  else if matchGoTypeRef cs (name tgt) then [pair_proposal src tgt] else [].

Definition strategy3_proposals (ad : list di)
    (fileContents : gmap string string) : list proposal :=
  ad ≫= λ src,
    if negb (bool_decide (kind src = parser.DeclService)) then []
    else
      let cs := default "" (fileContents !! fp src) in
      if bool_decide (cs = "") then []
      else ad ≫= service_proposals cs src.

Definition call_proposals (cs : string) (src tgt : di) : list proposal :=
  if negb (bool_decide (kind tgt = parser.DeclFunc))
     || bool_decide (fp tgt = fp src) || bool_decide (name tgt = name src)
  then []
  else if String.length (name tgt) <=? 4 then []
  else if matchGoTypeRef cs (name tgt) then [pair_proposal src tgt] else [].

Definition strategy4_proposals (ad : list di)
    (fileContents : gmap string string) : list proposal :=
  ad ≫= λ src,
    if negb (bool_decide (kind src = parser.DeclFunc)) then []
    else
      let cs := default "" (fileContents !! fp src) in
      if bool_decide (cs = "") then []
      else ad ≫= call_proposals cs src.

Definition all_proposals (ad : list di) (fileContents : gmap string string)
  : list proposal :=
  strategy1_proposals ad fileContents (group_by_file ad)
  ++ strategy2_proposals (group_by_file ad)
  ++ strategy3_proposals ad fileContents
  ++ strategy4_proposals ad fileContents.

Local Abbreviation run := (run nodeScores).

Lemma run_nil st : run st [] = st.
Proof. done. Qed.

Lemma run_one_or_skip st (b : bool) p :
  (if bool_decide (p_key p ∈ seen st) then st
   else if b then add_candidate nodeScores st (p_src p) (p_tgt p) (p_key p)
   else st)
  = run st (if b then [p] else []).
Proof.
  destruct b; simpl.
  - done.
  - by case_bool_decide.
Qed.

Lemma cross_ref_run fpK cs d st tgt :
  cross_ref nodeScores fpK cs d st tgt = run st (cross_ref_proposals fpK cs d tgt).
Proof.
  unfold cross_ref, cross_ref_proposals.
  destruct (bool_decide (fp tgt = fpK)); [done|].
  destruct (_ || _); [done|].
  apply (run_one_or_skip st (matchGoTypeRef cs (name tgt)) (pair_proposal d tgt)).
Qed.

Lemma colocate_run i src st jt :
  colocate nodeScores i src st jt = run st (colocate_proposals i src jt).
Proof.
  destruct jt as [j tgt]. unfold colocate, colocate_proposals. simpl.
  destruct (_ || _); [done|].
  apply (run_one_or_skip st true (pair_proposal src tgt)).
Qed.

Lemma service_ref_run cs src st tgt :
  service_ref nodeScores cs src st tgt = run st (service_proposals cs src tgt).
Proof.
  unfold service_ref, service_proposals.
  destruct (_ && _); [done|].
  destruct (_ <=? _); [done|].
  apply (run_one_or_skip st (matchGoTypeRef cs (name tgt)) (pair_proposal src tgt)).
Qed.

Lemma call_ref_run cs src st tgt :
  call_ref nodeScores cs src st tgt = run st (call_proposals cs src tgt).
Proof.
  unfold call_ref, call_proposals.
  destruct (_ || _); [done|].
  destruct (_ <=? _); [done|].
  apply (run_one_or_skip st (matchGoTypeRef cs (name tgt)) (pair_proposal src tgt)).
Qed.

Lemma strategy1_run ad fileContents fileNodes st :
  strategy1 nodeScores ad fileContents fileNodes st
  = run st (strategy1_proposals ad fileContents fileNodes).
Proof.
  unfold strategy1, strategy1_proposals.
  apply foldl_run. intros st1 kv _.
  apply foldl_run. intros st2 d _.
  apply foldl_run. intros st3 tgt _. apply cross_ref_run.
Qed.

Lemma colocate_file_run st nodesInFile :
  colocate_file nodeScores st nodesInFile = run st (file_proposals nodesInFile).
Proof.
  unfold colocate_file, file_proposals.
  destruct (_ || _); [done|].
  apply foldl_run. intros st1 src _.
  apply foldl_run. intros st2 jt _. apply colocate_run.
Qed.

Lemma strategy2_run fileNodes st :
  strategy2 nodeScores fileNodes st = run st (strategy2_proposals fileNodes).
Proof.
  unfold strategy2, strategy2_proposals.
  apply foldl_run. intros st1 kv _. apply colocate_file_run.
Qed.

Lemma strategy3_run ad fileContents st :
  strategy3 nodeScores ad fileContents st
  = run st (strategy3_proposals ad fileContents).
Proof.
  unfold strategy3, strategy3_proposals.
  apply foldl_run. intros st1 src _.
  destruct (negb _); [done|]. simpl.
  destruct (bool_decide _); [done|].
  apply foldl_run. intros st2 tgt _. apply service_ref_run.
Qed.

Lemma strategy4_run ad fileContents st :
  strategy4 nodeScores ad fileContents st
  = run st (strategy4_proposals ad fileContents).
Proof.
  unfold strategy4, strategy4_proposals.
  apply foldl_run. intros st1 src _.
  destruct (negb _); [done|]. simpl.
  destruct (bool_decide _); [done|].
  apply foldl_run. intros st2 tgt _. apply call_ref_run.
Qed.

(** The candidate edges of [buildDeclGraph] are the run of the proposals of
    the four strategies, in their order, from nothing. *)
Lemma build_edges_run ad fileContents :
  build_edges nodeScores ad fileContents
  = run (mkEdges ∅ ∅) (all_proposals ad fileContents).
Proof.
  unfold build_edges, all_proposals. rewrite !run_app.
  by rewrite strategy1_run, strategy2_run, strategy3_run, strategy4_run.
Qed.

(** [fileNodes] holds, for a file, the nodes of that file in their order. *)
Lemma group_by_file_fold (m : gmap string (list di)) ad k :
  foldl (λ m d, <[fp d := default [] (m !! fp d) ++ [d]]> m) m ad !! k
  = match filter (λ d, fp d = k) ad with
    | [] => m !! k
    | l => Some (default [] (m !! k) ++ l)
    end.
Proof.
  revert m. induction ad as [|d ad IH]; intros m; [done|].
  simpl. rewrite IH, filter_cons. destruct (decide (fp d = k)) as [<-|Hne].
  - rewrite lookup_insert_eq. simpl.
    destruct (filter _ ad); [done|]. by rewrite <- app_assoc.
  - by rewrite lookup_insert_ne.
Qed.

Lemma group_by_file_lookup ad k :
  group_by_file ad !! k
  = match filter (λ d, fp d = k) ad with [] => None | l => Some l end.
Proof.
  unfold group_by_file. rewrite group_by_file_fold, lookup_empty.
  by destruct (filter _ ad).
Qed.

Lemma group_by_file_elem ad k l d :
  group_by_file ad !! k = Some l → d ∈ l → d ∈ ad ∧ fp d = k.
Proof.
  rewrite group_by_file_lookup. intros Hl Hd.
  assert (l = filter (λ d, fp d = k) ad) as ->.
  { destruct (filter _ ad); by simplify_eq. }
  by apply list_elem_of_filter in Hd as [? ?].
Qed.

Lemma elem_of_indexed {A} (l : list A) i x :
  (i, x) ∈ indexed l → l !! i = Some x.
Proof.
  unfold indexed. intros Hin.
  apply elem_of_lookup_imap_1 in Hin as (j & y & Heq & Hl). by simplify_eq.
Qed.

Lemma elem_of_one_or_none {A} (b : bool) (x y : A) :
  x ∈ (if b then [y] else []) → b = true ∧ x = y.
Proof.
  destruct b; [|by intros ?%elem_of_nil].
  by intros ->%list_elem_of_singleton.
Qed.

(** A proposal between two nodes of [ad]. *)
Definition from_nodes (ad : list di) (p : proposal) : Prop :=
  ∃ a b, a ∈ ad ∧ b ∈ ad ∧ p = pair_proposal a b.

Lemma file_proposals_elem l p :
  p ∈ file_proposals l →
  ∃ a b, a ∈ l ∧ b ∈ l ∧ name b ≠ name a ∧ p = pair_proposal a b.
Proof.
  unfold file_proposals. destruct (_ || _); [by intros ?%elem_of_nil|].
  intros ([i a] & Hp & Ha)%list_elem_of_bind.
  apply list_elem_of_bind in Hp as ([j b] & Hp & Hb).
  unfold colocate_proposals in Hp. simpl in Hp.
  destruct (_ || _) eqn:Hskip; [by apply elem_of_nil in Hp|].
  apply list_elem_of_singleton in Hp as ->.
  apply orb_false_iff in Hskip as [_ Hname].
  apply bool_decide_eq_false in Hname.
  apply elem_of_indexed, list_elem_of_lookup_2 in Ha, Hb. by exists a, b.
Qed.

Lemma all_proposals_from_nodes ad fileContents :
  Forall (from_nodes ad) (all_proposals ad fileContents).
Proof.
  unfold all_proposals. rewrite !Forall_app. split_and!; apply Forall_forall.
  - intros p ([k cs] & Hp & _)%list_elem_of_bind. simpl in Hp.
    apply list_elem_of_bind in Hp as (d & Hp & Hd).
    apply list_elem_of_bind in Hp as (tgt & Hp & Htgt).
    destruct (group_by_file ad !! k) as [l|] eqn:Hl;
      [|by apply elem_of_nil in Hd].
    apply (group_by_file_elem ad k l d Hl) in Hd as [Hd _].
    unfold cross_ref_proposals in Hp.
    repeat (case_match; try by apply elem_of_nil in Hp).
    apply list_elem_of_singleton in Hp as ->. by exists d, tgt.
  - intros p ([k l] & Hp & Hkl)%list_elem_of_bind. simpl in Hp.
    rewrite go_range_perm in Hkl. apply elem_of_map_to_list in Hkl.
    apply file_proposals_elem in Hp as (a & b & Ha & Hb & _ & ->).
    exists a, b. split_and!; [..|done]; by eapply group_by_file_elem.
  - intros p (src & Hp & Hsrc)%list_elem_of_bind.
    destruct (negb _); [by apply elem_of_nil in Hp|]. cbv zeta in Hp.
    destruct (bool_decide (_ = "")); [by apply elem_of_nil in Hp|].
    apply list_elem_of_bind in Hp as (tgt & Hp & Htgt).
    unfold service_proposals in Hp.
    repeat (case_match; try by apply elem_of_nil in Hp).
    apply list_elem_of_singleton in Hp as ->. by exists src, tgt.
  - intros p (src & Hp & Hsrc)%list_elem_of_bind.
    destruct (negb _); [by apply elem_of_nil in Hp|]. cbv zeta in Hp.
    destruct (bool_decide (_ = "")); [by apply elem_of_nil in Hp|].
    apply list_elem_of_bind in Hp as (tgt & Hp & Htgt).
    unfold call_proposals in Hp.
    repeat (case_match; try by apply elem_of_nil in Hp).
    apply list_elem_of_singleton in Hp as ->. by exists src, tgt.
Qed.

(** Every key seen while the edges are built is that of a recorded edge
    between two nodes. *)
Lemma build_edges_recorded ad fileContents :
  recorded (from_nodes ad) (build_edges nodeScores ad fileContents).
Proof.
  rewrite build_edges_run. apply recorded_run.
  - intros ek Hek. simpl in Hek. set_solver.
  - apply all_proposals_from_nodes.
Qed.

(** No two pairs of nodes have the same key, up to the ids. *)
Definition unambiguous (ad : list di) : Prop :=
  ∀ a b a' b', a ∈ ad → b ∈ ad → a' ∈ ad → b' ∈ ad →
    edge_key (node_id a) b = edge_key (node_id a') b' →
    node_id a = node_id a' ∧ node_id b = node_id b'.

(** A service whose file was read and is not empty, and a message or rpc
    node with a name of more than 4 bytes that the file mentions at a word
    boundary, give a proposal of strategy 3. *)
Lemma service_hit_proposed ad fileContents src tgt cs :
  src ∈ ad → tgt ∈ ad →
  kind src = parser.DeclService →
  fileContents !! fp src = Some cs → cs ≠ "" →
  kind tgt = parser.DeclMessage ∨ kind tgt = parser.DeclRPC →
  4 < String.length (name tgt) →
  matchGoTypeRef cs (name tgt) = true →
  pair_proposal src tgt ∈ strategy3_proposals ad fileContents.
Proof.
  intros Hsrc Htgt Hkind Hcs Hne Hk Hlen Hmatch.
  unfold strategy3_proposals. apply list_elem_of_bind. exists src.
  split; [|done].
  rewrite Hkind, Hcs. simpl.
  rewrite bool_decide_eq_false_2 by done.
  apply list_elem_of_bind. exists tgt. split; [|done].
  unfold service_proposals. rewrite Hmatch.
  replace (String.length (name tgt) <=? 4) with false
    by (symmetry; apply Nat.leb_gt; lia).
  destruct Hk as [-> | ->]; simpl; by apply list_elem_of_singleton.
Qed.

End Strategies.

(** *** The caps on the graph *)

Section CapsExact.
Context {T : Type} {F64 : Float64 T} {R : GoRuntime}.




Lemma kept_nil : kept ([] : list (candidate T)) = [].
Proof.
  destruct (kept_best ([] : list (candidate T))) as (Hlen & _).
  by apply nil_length_inv.
Qed.










Variable ReadFile : string → option string.


End CapsExact.

Section SchemaLinkage.
Context {T : Type} {F64 : Float64 T} {R : GoRuntime}.
Variable ReadFile : string → option string.

(** C2, as the code has it.  In the declaration graph of a microservice,
    for every service node whose file was read and is not empty, and every
    message or rpc node whose name has more than 4 bytes and occurs in that
    file at a word boundary, the key of the edge from the service to that
    node is seen: an edge between two nodes with that key is among the
    candidate edges, and it is the edge from this service to this node when
    keys tell pairs of nodes apart.  (The candidate edges then go through
    the caps.) *)
Theorem service_hits_become_edges (ms : MicroserviceSummary)
    (scores : gmap string T) (src tgt : di) (cs : string) :
  let ad := cap_nodes scores (collect ms) in
  let fileContents := read_files ReadFile ms in
  let st := build_edges (make_nodeScores scores ad) ad fileContents in
  src ∈ ad → tgt ∈ ad →
  kind src = parser.DeclService →
  fileContents !! fp src = Some cs → cs ≠ "" →
  kind tgt = parser.DeclMessage ∨ kind tgt = parser.DeclRPC →
  4 < String.length (name tgt) →
  matchGoTypeRef cs (name tgt) = true →
  edge_key (node_id src) tgt ∈ seen st
  ∧ (∃ a b, a ∈ ad ∧ b ∈ ad
            ∧ edge_key (node_id a) b = edge_key (node_id src) tgt
            ∧ node_id b ∈ targets_of st (node_id a))
  ∧ (unambiguous ad → node_id tgt ∈ targets_of st (node_id src)).
Proof.
  intros ad fileContents st Hsrc Htgt Hkind Hcs Hne Hk Hlen Hmatch.
  assert (edge_key (node_id src) tgt ∈ seen st) as Hseen.
  { unfold st. rewrite build_edges_run, seen_run. apply elem_of_union. right.
    apply elem_of_list_to_set, list_elem_of_fmap.
    exists (pair_proposal src tgt). split; [done|].
    unfold all_proposals. rewrite !elem_of_app. right. right. left.
    by eapply service_hit_proposed. }
  destruct (build_edges_recorded (make_nodeScores scores ad) ad fileContents
              _ Hseen) as (p & (a & b & Ha & Hb & ->) & Hkey & Hrec).
  split; [done|]. split.
  - by exists a, b.
  - intros Hun. destruct (Hun a b src tgt Ha Hb Hsrc Htgt Hkey) as [Hs Ht].
    unfold p_tgt, p_src, pair_proposal in Hrec. simpl in Hrec.
    by rewrite <- Hs, <- Ht.
Qed.

End SchemaLinkage.

(** *** Co-location *)

(** A name of word characters, as the parser's [\w+] gives them. *)
Fixpoint is_word (s : string) : bool :=
  match s with
  | EmptyString => true
  | String c r => isIdentChar c && is_word r
  end.

Lemma string_app_cons x (a b : string) :
  String x a +:+ b = String x (a +:+ b).
Proof. reflexivity. Qed.

Lemma string_app_nil (b : string) : "" +:+ b = b.
Proof. reflexivity. Qed.

Lemma string_app_assoc (a b c : string) : (a +:+ b) +:+ c = a +:+ (b +:+ c).
Proof.
  induction a as [|x a IH]; [done|]. rewrite !string_app_cons. by f_equal.
Qed.

Lemma string_app_inv_head (a b c : string) : a +:+ b = a +:+ c → b = c.
Proof.
  induction a as [|x a IH]; [done|]. rewrite !string_app_cons.
  intros [= Heq]. by apply IH.
Qed.

(** No byte of [s] is ['>']. *)
Fixpoint no_gt (s : string) : bool :=
  match s with
  | EmptyString => true
  | String c r => negb (Ascii.eqb c ">"%char) && no_gt r
  end.

Lemma is_word_no_gt s : is_word s = true → no_gt s = true.
Proof.
  induction s as [|c s IH]; [done|]. simpl.
  intros [Hc Hs]%andb_true_iff. rewrite IH by done.
  destruct (Ascii.eqb_spec c ">"%char) as [->|]; [done|]. done.
Qed.

(** Two strings without ['>'], each followed by ["->"] and a rest: the
    strings and the rests are the same when the whole is. *)
Lemma arrow_inj (a a' r r' : string) :
  no_gt a = true → no_gt a' = true →
  a +:+ "->" +:+ r = a' +:+ "->" +:+ r' → a = a' ∧ r = r'.
Proof.
  revert a'. induction a as [|x a IH]; intros [|x' a'] Ha Ha' Heq;
    rewrite ?string_app_cons, ?string_app_nil in Heq; simpl in Ha, Ha'.
  - by simplify_eq.
  - injection Heq as <- Heq. destruct a' as [|y a'];
      rewrite ?string_app_cons, ?string_app_nil in Heq; [done|].
    injection Heq as <- _. done.
  - injection Heq as -> Heq. destruct a as [|y a];
      rewrite ?string_app_cons, ?string_app_nil in Heq; [done|].
    injection Heq as -> _. done.
  - injection Heq as -> Heq. apply andb_true_iff in Ha as [_ Ha].
    apply andb_true_iff in Ha' as [_ Ha'].
    by destruct (IH a' Ha Ha' Heq) as [-> ->].
Qed.

(** In one file, the key of a pair of nodes with word names gives the
    names. *)
Lemma edge_key_same_file_inj (a b a' b' : di) :
  fp a' = fp a → fp b' = fp b →
  is_word (name a) = true → is_word (name a') = true →
  edge_key (node_id a) b = edge_key (node_id a') b' →
  name a = name a' ∧ name b = name b'.
Proof.
  unfold edge_key, node_id. intros -> -> Ha Ha' Heq.
  rewrite !string_app_assoc in Heq.
  do 2 apply string_app_inv_head in Heq.
  apply arrow_inj in Heq as [-> Heq]; [|by apply is_word_no_gt..].
  split; [done|]. by do 2 apply string_app_inv_head in Heq.
Qed.

(** Keys tell pairs of nodes apart when no node id holds ['>']. *)
Lemma unambiguous_no_gt (ad : list di) :
  Forall (λ d, no_gt (node_id d) = true) ad → unambiguous ad.
Proof.
  intros Hids a b a' b' Ha Hb Ha' Hb' Heq. rewrite Forall_forall in Hids.
  unfold edge_key in Heq. apply arrow_inj in Heq; [done|by apply Hids..].
Qed.

Lemma snd_indexed {A} (l : list A) : (indexed l).*2 = l.
Proof.
  unfold indexed. rewrite fmap_imap.
  assert (∀ (f : nat → A → A), (∀ n x, f n x = x) → imap f l = l) as Hid.
  { induction l as [|x l IH]; intros f Hf; [done|].
    rewrite imap_cons, Hf. f_equal. apply IH. intros n y. apply Hf. }
  by apply Hid.
Qed.

(** A loop over a slice with indices whose body does not depend on the
    index, for the elements at hand. *)
Lemma bind_indexed {A B} (l : list A) (f : nat * A → list B) (g : A → list B) :
  (∀ i x, l !! i = Some x → f (i, x) = g x) →
  indexed l ≫= f = l ≫= g.
Proof.
  intros Hfg. rewrite <- (snd_indexed l) at 2. rewrite list_fmap_bind.
  apply Forall_bind_ext, Forall_forall. intros [i x] Hin. simpl.
  apply Hfg. by apply elem_of_indexed.
Qed.

Lemma length_bind_const {A B} (f : A → list B) (l : list A) k :
  (∀ x, x ∈ l → length (f x) = k) → length (l ≫= f) = length l * k.
Proof.
  induction l as [|x l IH]; intros Hf; [done|].
  rewrite bind_cons, length_app, IH, Hf.
  - simpl. lia.
  - by apply elem_of_cons; left.
  - intros y Hy. apply Hf. by apply elem_of_cons; right.
Qed.

Lemma fmap_bind_comm {A B C} (f : B → C) (g : A → list B) (l : list A) :
  f <$> (l ≫= g) = l ≫= λ x, f <$> g x.
Proof.
  induction l as [|x l IH]; [done|]. by rewrite !bind_cons, fmap_app, IH.
Qed.

Lemma NoDup_fmap_elem {A B} (f : A → B) (l : list A) x y :
  NoDup (f <$> l) → x ∈ l → y ∈ l → f x = f y → x = y.
Proof.
  induction l as [|z l IH]; intros Hnd Hx Hy Hf; [by apply elem_of_nil in Hx|].
  rewrite fmap_cons in Hnd. apply NoDup_cons in Hnd as [Hz Hnd].
  apply elem_of_cons in Hx as [->|Hx]; apply elem_of_cons in Hy as [->|Hy].
  - done.
  - exfalso. apply Hz. rewrite Hf. by apply list_elem_of_fmap_2.
  - exfalso. apply Hz. rewrite <- Hf. by apply list_elem_of_fmap_2.
  - by apply IH.
Qed.

Section CoLocation.
Context {T : Type} {F64 : Float64 T}.
Variable nodeScores : gmap string T.

(** The proposals of co-location from [src]: to every node of another name. *)
Definition others (l : list di) (src : di) : list proposal :=
  l ≫= λ tgt, if bool_decide (name tgt = name src) then []
              else [pair_proposal src tgt].

Definition pairs (l : list di) : list proposal := l ≫= others l.

Lemma file_proposals_pairs l :
  2 ≤ length l ≤ 20 → file_proposals l = pairs l.
Proof.
  intros [Hlo Hhi]. unfold file_proposals, pairs.
  replace (length l <? 2) with false by (symmetry; apply Nat.ltb_ge; lia).
  replace (20 <? length l) with false by (symmetry; apply Nat.ltb_ge; lia).
  simpl. apply bind_indexed. intros i src Hi. simpl.
  apply bind_indexed. intros j tgt Hj. unfold colocate_proposals. simpl.
  destruct (Nat.eqb_spec i j) as [->|Hne]; simpl; [|done].
  rewrite Hi in Hj. injection Hj as ->.
  by rewrite bool_decide_eq_true_2.
Qed.

Lemma file_proposals_out_of_range l :
  length l < 2 ∨ 20 < length l → file_proposals l = [].
Proof.
  intros Hlen. unfold file_proposals.
  destruct (Nat.ltb_spec (length l) 2); [done|].
  destruct (Nat.ltb_spec 20 (length l)); [done|]. lia.
Qed.

Lemma length_others_absent l src :
  name src ∉ name <$> l → length (others l src) = length l.
Proof.
  unfold others. induction l as [|x l IH]; intros Hn; [done|].
  rewrite fmap_cons in Hn. apply not_elem_of_cons in Hn as [Hx Hn].
  rewrite bind_cons, length_app, IH by done.
  by rewrite bool_decide_eq_false_2 by done.
Qed.

Lemma length_others l src :
  NoDup (name <$> l) → src ∈ l → length (others l src) = length l - 1.
Proof.
  unfold others. induction l as [|x l IH]; intros Hnd Hsrc;
    [by apply elem_of_nil in Hsrc|].
  rewrite fmap_cons in Hnd. apply NoDup_cons in Hnd as [Hx Hnd].
  rewrite bind_cons, length_app.
  apply elem_of_cons in Hsrc as [->|Hsrc].
  - rewrite bool_decide_eq_true_2 by done.
    fold (others l x). rewrite length_others_absent by done. simpl. lia.
  - rewrite bool_decide_eq_false_2.
    + rewrite IH by done. destruct l; [by apply elem_of_nil in Hsrc|]. simpl. lia.
    + intros Heq. apply Hx. rewrite Heq. by apply list_elem_of_fmap_2.
Qed.

Lemma length_pairs l :
  NoDup (name <$> l) → length (pairs l) = length l * (length l - 1).
Proof.
  intros Hnd. unfold pairs. apply length_bind_const.
  intros src Hsrc. by apply length_others.
Qed.

Lemma elem_of_pairs l p :
  p ∈ pairs l ↔ ∃ a b, a ∈ l ∧ b ∈ l ∧ name b ≠ name a ∧ p = pair_proposal a b.
Proof.
  unfold pairs, others. rewrite list_elem_of_bind. split.
  - intros (a & Hp & Ha). apply list_elem_of_bind in Hp as (b & Hp & Hb).
    case_bool_decide; [by apply elem_of_nil in Hp|].
    apply list_elem_of_singleton in Hp. by exists a, b.
  - intros (a & b & Ha & Hb & Hne & ->). exists a. split; [|done].
    apply list_elem_of_bind. exists b. split; [|done].
    rewrite bool_decide_eq_false_2 by done. by apply list_elem_of_singleton.
Qed.

(** In a file whose nodes have distinct word names, distinct pairs have
    distinct keys. *)
Lemma NoDup_pairs_keys l f :
  Forall (λ d, fp d = f) l → Forall (λ d, is_word (name d) = true) l →
  NoDup (name <$> l) → NoDup (p_key <$> pairs l).
Proof.
  intros Hfile Hword Hnd.
  assert (∀ a b a' b', a ∈ l → b ∈ l → a' ∈ l → b' ∈ l →
            edge_key (node_id a) b = edge_key (node_id a') b' →
            a = a' ∧ b = b') as Hinj.
  { intros a b a' b' Ha Hb Ha' Hb' Heq.
    rewrite Forall_forall in Hfile, Hword.
    apply edge_key_same_file_inj in Heq as [Hna Hnb];
      [|by rewrite !Hfile|by rewrite !Hfile|by apply Hword..].
    split; by eapply (NoDup_fmap_elem name l). }
  assert (NoDup l) as Hl by (by eapply NoDup_fmap_1).
  unfold pairs. rewrite fmap_bind_comm.
  apply NoDup_bind; [| |done].
  - intros a a' k Ha Ha' Hk Hk'.
    apply list_elem_of_fmap in Hk as (p & -> & Hp).
    apply list_elem_of_fmap in Hk' as (p' & Hkey & Hp').
    unfold others in Hp, Hp'.
    apply list_elem_of_bind in Hp as (b & Hp & Hb).
    apply list_elem_of_bind in Hp' as (b' & Hp' & Hb').
    destruct (bool_decide (name b = name a)); [by apply elem_of_nil in Hp|].
    destruct (bool_decide (name b' = name a')); [by apply elem_of_nil in Hp'|].
    apply list_elem_of_singleton in Hp as ->.
    apply list_elem_of_singleton in Hp' as ->.
    by destruct (Hinj a b a' b' Ha Hb Ha' Hb' Hkey).
  - intros a Ha. unfold others. rewrite fmap_bind_comm.
    apply NoDup_bind; [| |done].
    + intros b b' k Hb Hb' Hk Hk'.
      destruct (bool_decide (name b = name a)); simpl in Hk;
        [by apply elem_of_nil in Hk|].
      destruct (bool_decide (name b' = name a)); simpl in Hk';
        [by apply elem_of_nil in Hk'|].
      apply list_elem_of_singleton in Hk as ->.
      apply list_elem_of_singleton in Hk'.
      by destruct (Hinj a b a b' Ha Hb Ha Hb' Hk').
    + intros b Hb. destruct (bool_decide _); simpl;
        [constructor|apply NoDup_singleton].
Qed.

(** C6, as the code has it.  For every list [l] of nodes ([fileNodes] of a
    file: its candidates among the capped nodes) and every state of the
    candidate edges:
    - when [l] has fewer than 2 or more than 20 nodes, co-location leaves
      the candidate edges as they are, so it adds none for 1 node and none
      for more than 20;
    - when [l] has 2 to 20 nodes, every ordered pair of nodes of different
      names has its key seen afterwards, and is linked unless its key was
      seen before: an edge of this key is recorded between two nodes of [l]
      of different names, and when the nodes are of one file and have word
      names, as the parser gives them, between the nodes of the pair;
    - co-location records edges between nodes of [l] of different names, and
      no other;
    - when the nodes are of one file and have different word names, and no
      key of theirs was seen, a list of 2 to 20 nodes gets one edge for
      every ordered pair, [n * (n - 1)] in all, 6 for 3 nodes. *)
Theorem colocation_links (st : EdgeState T) (l : list di) :
  let st' := colocate_file nodeScores st l in
  let key a b := edge_key (node_id a) b in
  let distinct f :=
    Forall (λ d, fp d = f) l ∧ Forall (λ d, is_word (name d) = true) l
    ∧ NoDup (name <$> l) ∧ ∀ a b, a ∈ l → b ∈ l → key a b ∉ seen st in
  (length l < 2 ∨ 20 < length l → st' = st)
  ∧ (length l = 1 ∨ 20 < length l → edge_count st' = edge_count st)
  ∧ (2 ≤ length l ≤ 20 →
     ∀ a b, a ∈ l → b ∈ l → name a ≠ name b →
       key a b ∈ seen st'
       ∧ (key a b ∈ seen st
          ∨ ∃ a' b', a' ∈ l ∧ b' ∈ l ∧ name a' ≠ name b'
                     ∧ key a' b' = key a b
                     ∧ node_id b' ∈ targets_of st' (node_id a')))
  ∧ (2 ≤ length l ≤ 20 →
     ∀ f, Forall (λ d, fp d = f) l → Forall (λ d, is_word (name d) = true) l →
     ∀ a b, a ∈ l → b ∈ l → name a ≠ name b →
       key a b ∈ seen st ∨ node_id b ∈ targets_of st' (node_id a))
  ∧ (∀ s t, t ∈ targets_of st' s →
       t ∈ targets_of st s
       ∨ (2 ≤ length l ≤ 20
          ∧ ∃ a b, a ∈ l ∧ b ∈ l ∧ name a ≠ name b
                   ∧ s = node_id a ∧ t = node_id b))
  ∧ (∀ f, distinct f → 2 ≤ length l ≤ 20 →
       edge_count st' = edge_count st + length l * (length l - 1))
  ∧ (∀ f, distinct f → length l = 3 → edge_count st' = edge_count st + 6).
Proof.
  intros st' key distinct.
  assert (length l < 2 ∨ 20 < length l → st' = st) as Hout.
  { intros Hlen. unfold st'.
    by rewrite colocate_file_run, file_proposals_out_of_range. }
  assert (2 ≤ length l ≤ 20 → st' = run nodeScores st (pairs l)) as Hrun.
  { intros Hlen. unfold st'.
    by rewrite colocate_file_run, file_proposals_pairs. }
  assert (2 ≤ length l ≤ 20 →
          ∀ a b, a ∈ l → b ∈ l → name a ≠ name b →
            key a b ∈ seen st
            ∨ ∃ a' b', a' ∈ l ∧ b' ∈ l ∧ name a' ≠ name b'
                       ∧ key a' b' = key a b
                       ∧ node_id b' ∈ targets_of st' (node_id a')) as Hlink.
  { intros Hlen a b Ha Hb Hne. rewrite (Hrun Hlen).
    destruct (run_links nodeScores st (pairs l) (pair_proposal a b))
      as [?|(q & Hq & Hk & Ht)]; [|by left|].
    { apply elem_of_pairs. exists a, b. naive_solver. }
    right. apply elem_of_pairs in Hq as (a' & b' & Ha' & Hb' & Hne' & ->).
    exists a', b'. split_and!; [done..|congruence|done|done]. }
  assert (∀ f, distinct f → 2 ≤ length l ≤ 20 →
            edge_count st' = edge_count st + length l * (length l - 1))
    as Hcount.
  { intros f (Hfile & Hword & Hnd & Hfresh) Hlen. rewrite (Hrun Hlen).
    destruct (run_fresh nodeScores st (pairs l)) as [Hcount _].
    - by eapply NoDup_pairs_keys.
    - intros p (a & b & Ha & Hb & _ & ->)%elem_of_pairs. by apply Hfresh.
    - by rewrite Hcount, length_pairs. }
  split_and!.
  - done.
  - intros Hlen. rewrite Hout; [done|lia].
  - intros Hlen a b Ha Hb Hne. split; [|by apply Hlink].
    rewrite (Hrun Hlen), seen_run. apply elem_of_union. right.
    apply elem_of_list_to_set, list_elem_of_fmap.
    exists (pair_proposal a b). split; [done|].
    apply elem_of_pairs. exists a, b. naive_solver.
  - intros Hlen f Hfile Hword a b Ha Hb Hne.
    destruct (Hlink Hlen a b Ha Hb Hne)
      as [?|(a' & b' & Ha' & Hb' & Hne' & Hk & Ht)]; [by left|].
    right. rewrite Forall_forall in Hfile, Hword.
    apply edge_key_same_file_inj in Hk as [Hna Hnb];
      [|by rewrite !Hfile|by rewrite !Hfile|by apply Hword..].
    assert (node_id a = node_id a') as ->.
    { unfold node_id. by rewrite Hna, !Hfile. }
    assert (node_id b = node_id b') as ->; [|done].
    unfold node_id. by rewrite Hnb, !Hfile.
  - intros s t Ht.
    destruct (decide (2 ≤ length l ≤ 20)) as [Hlen|Hlen].
    + rewrite (Hrun Hlen) in Ht.
      apply run_targets_origin in Ht as [?|(p & Hp & Hs & Hpt)]; [by left|].
      apply elem_of_pairs in Hp as (a & b & Ha & Hb & Hne & ->).
      right. split; [done|]. exists a, b. split_and!; [done..|congruence|done|done].
    + left. rewrite Hout in Ht; [done|lia].
  - done.
  - intros f Hd Hlen. rewrite (Hcount f Hd); [|lia]. by rewrite Hlen.
Qed.

End CoLocation.

(** One file with three messages. *)
Definition three_nodes : list di :=
  [mkDi "Order" "order.proto" "order.proto" parser.DeclMessage;
   mkDi "Item" "order.proto" "order.proto" parser.DeclMessage;
   mkDi "Price" "order.proto" "order.proto" parser.DeclMessage].

(** The same file when the third message is an [Item] nested in another
    message: two of the three nodes have the same name. *)
Definition order_nodes : list di :=
  [mkDi "Order" "order.proto" "order.proto" parser.DeclMessage;
   mkDi "Item" "order.proto" "order.proto" parser.DeclMessage;
   mkDi "Item" "order.proto" "order.proto" parser.DeclMessage].

Example colocation_links_witness :
  let st0 := mkEdges (T := float) ∅ ∅ in
  let st3 := colocate_file (T := float) ∅ st0 three_nodes in
  let sto := colocate_file (T := float) ∅ st0 order_nodes in
  edge_count st3 = edge_count st0 + 6
  ∧ (∀ a b, a ∈ three_nodes → b ∈ three_nodes → name a ≠ name b →
            node_id b ∈ targets_of st3 (node_id a))
  ∧ (∀ a b, a ∈ order_nodes → b ∈ order_nodes → name a ≠ name b →
            node_id b ∈ targets_of sto (node_id a))
  ∧ (∀ s t, t ∈ targets_of sto s →
            ∃ a b, a ∈ order_nodes ∧ b ∈ order_nodes ∧ name a ≠ name b
                   ∧ s = node_id a ∧ t = node_id b).
Proof.
  intros st0 st3 sto.
  assert (∀ k, k ∉ seen st0) as Hfresh by (intros k; apply not_elem_of_empty).
  assert (∀ t s, t ∉ targets_of st0 s) as Hnone.
  { intros t s. unfold targets_of, st0. simpl. rewrite lookup_empty. simpl.
    apply not_elem_of_nil. }
  assert (Forall (λ d, fp d = "order.proto") three_nodes) as H3file
    by (by repeat constructor).
  assert (Forall (λ d, is_word (name d) = true) three_nodes) as H3word
    by (by repeat constructor).
  assert (Forall (λ d, fp d = "order.proto") order_nodes) as Hofile
    by (by repeat constructor).
  assert (Forall (λ d, is_word (name d) = true) order_nodes) as Howord
    by (by repeat constructor).
  assert (NoDup (name <$> three_nodes)) as H3nd.
  { simpl.
    repeat (apply NoDup_cons; split;
      [intros Hin;
       repeat (apply elem_of_cons in Hin as [Hin|Hin]; [discriminate|]);
       by apply elem_of_nil in Hin|]).
    constructor. }
  pose proof (colocation_links (T := float) ∅ st0 three_nodes) as H3.
  pose proof (colocation_links (T := float) ∅ st0 order_nodes) as Ho.
  cbv zeta in H3, Ho.
  destruct H3 as (_ & _ & _ & H3link & _ & _ & H3count).
  destruct Ho as (_ & _ & _ & Holink & Hoonly & _).
  split_and!.
  - apply (H3count "order.proto"); [|reflexivity].
    split_and!; [exact H3file|exact H3word|exact H3nd|].
    intros a b _ _. apply Hfresh.
  - intros a b Ha Hb Hne.
    destruct (H3link ltac:(simpl; lia) "order.proto" H3file H3word
                a b Ha Hb Hne) as [Hseen|Ht]; [|exact Ht].
    by apply Hfresh in Hseen.
  - intros a b Ha Hb Hne.
    destruct (Holink ltac:(simpl; lia) "order.proto" Hofile Howord
                a b Ha Hb Hne) as [Hseen|Ht]; [|exact Ht].
    by apply Hfresh in Hseen.
  - intros s t Ht. destruct (Hoonly s t Ht) as [Hold|[_ Hex]]; [|exact Hex].
    by apply Hnone in Hold.
Defined.

(** The files are counted after the node cap.  [b.go] declares 25 structs,
    more than 20; of the 95 candidates the 80 of the highest-scored files
    are kept, the 70 of [a.go] and 10 of [b.go]; and co-location links
    those 10: every link of the graph leaves a node of [b.go]. *)
Definition nth_name (n : nat) : string :=
  String (ascii_of_nat (65 + n / 26))
         (String (ascii_of_nat (97 + n mod 26)) "x").

Definition structs (first count : nat) : list parser.Declaration :=
  (λ n, parser.mkDecl (nth_name n) parser.DeclStruct) <$> seq first count.

Definition big_ms : MicroserviceSummary :=
  mkMS "big" [parser.mkParsedFile "a.go" (structs 0 70) [];
              parser.mkParsedFile "b.go" (structs 100 25) []].

Definition big_scores : gmap string float :=
  {[ "a.go" := 2%float; "b.go" := 1%float ]}.

Example dense_file_linked_after_cap :
  let gd := buildDeclGraph (λ _, None) big_ms big_scores in
  let in_b := filter (λ d, fp d = "b.go") in
  length (in_b (collect big_ms)) = 25
  ∧ length (in_b (cap_nodes big_scores (collect big_ms))) = 10
  ∧ length (Nodes gd) = 80
  ∧ length (Links gd) = 50
  ∧ forallb (λ l, bool_decide (Source l ∈ node_id <$> in_b (collect big_ms)))
            (Links gd) = true.
Proof. vm_compute. done. Qed.

(** One file with three messages of different names: 6 links. *)
Definition three_ms : MicroserviceSummary :=
  mkMS "shop"
    [parser.mkParsedFile "order.proto"
       [parser.mkDecl "Order" parser.DeclMessage;
        parser.mkDecl "Item" parser.DeclMessage;
        parser.mkDecl "Price" parser.DeclMessage] []].

Example three_messages_six_links :
  Links (buildDeclGraph (T := float) (λ _, None) three_ms ∅)
  = [mkLink "order.proto::Order" "order.proto::Item";
     mkLink "order.proto::Order" "order.proto::Price";
     mkLink "order.proto::Item" "order.proto::Order";
     mkLink "order.proto::Item" "order.proto::Price";
     mkLink "order.proto::Price" "order.proto::Order";
     mkLink "order.proto::Price" "order.proto::Item"].
Proof. vm_compute. reflexivity. Qed.


(** One file with three messages, two of which have the same name: a
    message [Item] and a message [Item] nested in another one. *)
Definition order_ms : MicroserviceSummary :=
  mkMS "shop"
    [parser.mkParsedFile "order.proto"
       [parser.mkDecl "Order" parser.DeclMessage;
        parser.mkDecl "Item" parser.DeclMessage;
        parser.mkDecl "Item" parser.DeclMessage] []].

(** C6, as stated, fails: the file [order.proto] of [order_ms] declares
    three messages; all three are candidates and nodes, no file can be
    read, so no other signal detects anything; and the graph has 2
    co-location edges, not 6. *)
Lemma three_declarations_two_edges :
  let gd := buildDeclGraph (T := float) (λ _, None) order_ms ∅ in
  length (collect order_ms) = 3
  ∧ Sublabel <$> Nodes gd = ["order.proto"; "order.proto"; "order.proto"]
  ∧ Label <$> Nodes gd = ["Order"; "Item"; "Item"]
  ∧ Links gd = [mkLink "order.proto::Order" "order.proto::Item";
                mkLink "order.proto::Item" "order.proto::Order"]
  ∧ length (Links gd) ≠ 6.
Proof.
  split_and!; try (vm_compute; reflexivity). vm_compute. lia.
Qed.

(** A microservice of two proto files: a service that mentions the
    messages [Request] and [Resp] of the other file, and an rpc. *)
Definition svc_content : string :=
  "service Users { rpc Fetch (Request) returns (Resp); }".

Definition msg_content : string := "message Request {} message Resp {}".

Definition proto_disk (path : string) : option string :=
  if bool_decide (path = "svc.proto") then Some svc_content
  else if bool_decide (path = "msg.proto") then Some msg_content
  else None.

Definition proto_ms : MicroserviceSummary :=
  mkMS "api"
    [parser.mkParsedFile "svc.proto"
       [parser.mkDecl "Users" parser.DeclService;
        parser.mkDecl "Fetch" parser.DeclRPC] [];
     parser.mkParsedFile "msg.proto"
       [parser.mkDecl "Request" parser.DeclMessage;
        parser.mkDecl "Resp" parser.DeclMessage] []].

Definition proto_nodes : list di :=
  cap_nodes (T := float) ∅ (collect proto_ms).

Definition proto_edges : EdgeState float :=
  build_edges (make_nodeScores ∅ proto_nodes) proto_nodes
              (read_files proto_disk proto_ms).

Definition users_node : di :=
  mkDi "Users" "svc.proto" "svc.proto" parser.DeclService.
Definition request_node : di :=
  mkDi "Request" "msg.proto" "msg.proto" parser.DeclMessage.
Definition resp_node : di :=
  mkDi "Resp" "msg.proto" "msg.proto" parser.DeclMessage.

Example service_hits_become_edges_witness :
  edge_key (node_id users_node) request_node ∈ seen proto_edges
  ∧ node_id request_node ∈ targets_of proto_edges (node_id users_node).
Proof.
  destruct (service_hits_become_edges proto_disk proto_ms ∅
              users_node request_node svc_content) as (Hseen & _ & Hedge).
  - vm_compute. set_solver.
  - vm_compute. set_solver.
  - reflexivity.
  - reflexivity.
  - discriminate.
  - by left.
  - simpl. lia.
  - reflexivity.
  - split; [exact Hseen|]. apply Hedge, unambiguous_no_gt.
    vm_compute. by repeat constructor.
Defined.

(** C2, as stated, fails: [svc_content], the file of the service [Users],
    holds [Resp] at a word boundary, and [Resp] is a message node; but its
    name has 4 bytes, and neither the graph nor the candidate edges have an
    edge from the service to it.  The rpc [Fetch] occurs in the file too,
    and is not a node at all. *)
Lemma short_message_name_gives_no_edge :
  let gd := buildDeclGraph (T := float) proto_disk proto_ms ∅ in
  users_node ∈ proto_nodes ∧ resp_node ∈ proto_nodes
  ∧ matchGoTypeRef svc_content (name resp_node) = true
  ∧ matchGoTypeRef svc_content "Fetch" = true
  ∧ (mkLink (node_id users_node) (node_id resp_node) ∉ Links gd)
  ∧ (node_id resp_node ∉ targets_of proto_edges (node_id users_node))
  ∧ ID <$> Nodes gd = ["svc.proto::Users"; "msg.proto::Request"; "msg.proto::Resp"]
  ∧ Links gd = [mkLink "svc.proto::Users" "msg.proto::Request";
                mkLink "msg.proto::Resp" "msg.proto::Request";
                mkLink "msg.proto::Request" "msg.proto::Resp"]
  ∧ targets_of proto_edges (node_id users_node) = ["msg.proto::Request"].
Proof.
  assert (∀ {A} (x : A) (l : list A),
            Forall (λ y, x ≠ y) l → x ∉ l) as Habsent.
  { intros A x l Hall Hin. by apply (proj1 (Forall_forall _ _) Hall x Hin). }
  split_and!; try (vm_compute; reflexivity).
  - vm_compute. set_solver.
  - vm_compute. set_solver.
  - apply Habsent. vm_compute. by repeat constructor.
  - apply Habsent. vm_compute. by repeat constructor.
Qed.

(** Declarations of kind rpc are never nodes. *)
Lemma collect_kinds (ms : MicroserviceSummary) :
  Forall (λ d, typeKinds (kind d) = true ∨ kind d = parser.DeclFunc) (collect ms).
Proof.
  unfold collect.
  assert (∀ files st,
    Forall (λ d, typeKinds (kind d) = true ∨ kind d = parser.DeclFunc) st.1 →
    Forall (λ d, typeKinds (kind d) = true ∨ kind d = parser.DeclFunc)
           (foldl collect_file st files).1) as Hfiles.
  { induction files as [|f files IH]; intros st Hst; [done|].
    simpl. apply IH. unfold collect_file.
    assert (Forall (λ d, typeKinds (kind d) = true ∨ kind d = parser.DeclFunc)
              (foldl (collect_decl f) st (parser.Declarations f)).1) as Hdecls.
    { revert st Hst. induction (parser.Declarations f) as [|d ds IHd];
        intros st Hst; [done|].
      simpl. apply IHd. destruct st as [ad funcSet]. unfold collect_decl.
      simpl in *.
      destruct (typeKinds (parser.Kind d) && _) eqn:Htype;
        repeat case_match; simpl; rewrite ?Forall_app, ?Forall_singleton;
        simpl; try apply andb_true_iff in Htype as [? _]; naive_solver. }
    revert Hdecls. generalize (foldl (collect_decl f) st (parser.Declarations f)).
    induction (parser.BigFunctions f) as [|bf bfs IHb]; intros st' Hst'; [done|].
    simpl. apply IHb. destruct st' as [ad funcSet]. unfold collect_big.
    case_match; simpl; [done|].
    rewrite Forall_app, Forall_singleton. simpl. naive_solver. }
  apply Hfiles. simpl. constructor.
Qed.

Lemma collect_no_rpc (ms : MicroserviceSummary) d :
  d ∈ collect ms → kind d ≠ parser.DeclRPC.
Proof.
  intros Hd Hk.
  destruct (proj1 (Forall_forall _ _) (collect_kinds ms) d Hd) as [Ht|Hf].
  - by rewrite Hk in Ht.
  - by rewrite Hk in Hf.
Qed.

End report_facts.
